(** * Job and process control: a shallow embedding of [src/jobs/controller.py]

    The module defines [JobStatus], [Job], [Pipeline] and [ProcessController].
    Python objects are modelled by records, the insertion-ordered [dict]s
    that the code iterates over ([Pipeline.jobs], [ProcessController.pipelines],
    the result mapping) by association lists, the execution context (whose
    order is never observed) by a [gmap], the [visited] set by a [gset],
    exceptions by an explicit result type threaded through a state monad,
    and [float] durations by IEEE binary64 primitive floats. *)

From Stdlib Require Import ZArith Floats.
From stdpp Require Import gmap strings list relations.

Local Open Scope string_scope.
Local Open Scope list_scope.
Local Open Scope Z_scope.
Local Open Scope nat_scope.

(* ===================================================================== *)
(** ** Python values, exceptions and results *)
(* ===================================================================== *)

(** The values that job callables exchange through the context. *)
#[warnings="-register-all"]
Inductive pyval :=
| VNone
| VInt (n : Z)
| VStr (s : string)
| VDict (items : list (string * pyval)).

(** The execution context, a [Dict[str, Any]]. *)
Abbreviation Context := (gmap string pyval).

(** The exception classes that matter to the module: the ones it raises
    itself ([ValueError]), the ones raised by the constructs it uses
    ([KeyError] from [d[k]], [TypeError] from formatting [None],
    [RecursionError] from the interpreter's recursion limit), any other
    subclass of [Exception], and the classes that derive from
    [BaseException] only ([KeyboardInterrupt], [SystemExit], ...), which an
    [except Exception] clause does not catch. *)
Inductive ExcClass :=
| ValueError
| KeyError
| TypeError
| RecursionError
| OtherException
| BaseExceptionOnly.

Record PyExc := mkExc { exc_class : ExcClass; exc_str : string }.

(** [isinstance(e, Exception)] *)
Definition isinstance_Exception (e : PyExc) : bool :=
  match exc_class e with
  | BaseExceptionOnly => false
  | _ => true
  end.

(** [str(e)] *)
Definition str (e : PyExc) : string := exc_str e.

Definition recursion_error : PyExc :=
  mkExc RecursionError "maximum recursion depth exceeded".

Definition key_error (k : string) : PyExc :=
  mkExc KeyError ("'" ++ k ++ "'")%string.

Definition format_type_error : PyExc :=
  mkExc TypeError "unsupported format string passed to NoneType.__format__".

Inductive Res (A : Type) :=
| Ok (a : A)
| Raise (e : PyExc).
Arguments Ok {A} a.
Arguments Raise {A} e.

(** State and exception monad: a raised exception keeps the state reached
    when it was raised. *)
Definition M (S A : Type) : Type := S -> Res A * S.

Definition ret {S A} (a : A) : M S A := fun s => (Ok a, s).
Definition raise {S A} (e : PyExc) : M S A := fun s => (Raise e, s).
Definition bind {S A B} (c : M S A) (k : A -> M S B) : M S B :=
  fun s => match c s with
           | (Ok a, s') => k a s'
           | (Raise e, s') => (Raise e, s')
           end.
Definition get {S} : M S S := fun s => (Ok s, s).
Definition put {S} (s : S) : M S unit := fun _ => (Ok tt, s).
Definition modify {S} (f : S -> S) : M S unit := fun s => (Ok tt, f s).

Notation "'let!' x ':=' c 'in' k" := (bind c (fun x => k))
  (at level 10, x name, c at level 100, k at level 200, only parsing).
Notation "c ;;; k" := (bind c (fun _ => k))
  (at level 100, k at level 200, only parsing).

(** [for x in l: body(x)] *)
Fixpoint for_each {S A} (body : A -> M S unit) (l : list A) : M S unit :=
  match l with
  | [] => ret tt
  | x :: rest => body x ;;; for_each body rest
  end.

(* ===================================================================== *)
(** ** Insertion-ordered dictionaries *)
(* ===================================================================== *)

Section odict.
Context {K : Type} `{EqDecision K} {V : Type}.

Definition odict := list (K * V).

(** [d.get(k)] *)
Fixpoint dict_get (k : K) (d : list (K * V)) : option V :=
  match d with
  | [] => None
  | (k', v) :: rest => if decide (k = k') then Some v else dict_get k rest
  end.

(** [k in d] *)
Definition dict_contains (k : K) (d : list (K * V)) : bool :=
  match dict_get k d with Some _ => true | None => false end.

(** [d[k] = v]: an existing key keeps its position, a new one goes last. *)
Fixpoint dict_set (k : K) (v : V) (d : list (K * V)) : list (K * V) :=
  match d with
  | [] => [(k, v)]
  | (k', v') :: rest =>
      if decide (k = k') then (k', v) :: rest else (k', v') :: dict_set k v rest
  end.

(** [del d[k]] *)
Fixpoint dict_del (k : K) (d : list (K * V)) : list (K * V) :=
  match d with
  | [] => []
  | (k', v') :: rest =>
      if decide (k = k') then rest else (k', v') :: dict_del k rest
  end.

(** [list(d)], [list(d.values())] *)
Definition dict_keys (d : list (K * V)) : list K := d.*1.
Definition dict_values (d : list (K * V)) : list V := d.*2.

(** The invariant of a Python [dict]: no key occurs twice. *)
Definition dict_wf (d : list (K * V)) : Prop := NoDup (dict_keys d).
End odict.
Arguments odict : clear implicits.

(* ===================================================================== *)
(** ** JobStatus *)
(* ===================================================================== *)

Inductive JobStatus := PENDING | RUNNING | SUCCESS | FAILED | SKIPPED.

#[global] Instance JobStatus_eq_dec : EqDecision JobStatus.
Proof. solve_decision. Defined.

(** The members of the enumeration, in definition order. *)
Definition JobStatus_members : list JobStatus :=
  [PENDING; RUNNING; SUCCESS; FAILED; SKIPPED].

(** [status.value] *)
Definition JobStatus_value (s : JobStatus) : string :=
  match s with
  | PENDING => "pending"
  | RUNNING => "running"
  | SUCCESS => "success"
  | FAILED => "failed"
  | SKIPPED => "skipped"
  end.

(* ===================================================================== *)
(** ** Time *)
(* ===================================================================== *)

(** A [datetime] is a count of microseconds; the difference of two is a
    [timedelta], again an exact count of microseconds. *)
Abbreviation datetime := Z (only parsing).
Abbreviation timedelta := Z (only parsing).

Definition float_of_Z (z : Z) : float :=
  match z with
  | Z0 => 0%float
  | Zpos _ => PrimFloat.of_uint63 (Uint63.of_Z z)
  | Zneg p => PrimFloat.opp (PrimFloat.of_uint63 (Uint63.of_Z (Zpos p)))
  end.

(** [td.total_seconds()]: the microseconds divided by [10**6], as a float
    (exactly Python's correctly rounded quotient below [2^53] microseconds,
    some 285 years). *)
Definition total_seconds (td : timedelta) : float :=
  PrimFloat.div (float_of_Z td) 1000000%float.

(** Truth value of a float: zero (of either sign) is false. *)
Definition float_truthy (x : float) : bool := negb (PrimFloat.eqb x 0%float).

(* ===================================================================== *)
(** ** Job *)
(* ===================================================================== *)

(** What calling the job body with its keyword arguments does: it returns a value
    or raises, and may have mutated the context it was handed. *)
Record Effect := mkEffect { outcome : Res pyval; context_after : Context }.

(** A job body; the first argument is the keyword arguments other than
    [context]. *)
Definition Callable := gmap string pyval -> Context -> Effect.

Module Job.

Record t := mk {
  name : string;
  func : Callable;
  depends_on : list string;
  params : gmap string pyval;
  status : JobStatus;
  result : pyval;
  error : option string;
  start_time : option Z;
  end_time : option Z
}.

(** [Job.__init__] *)
Definition init (name : string) (func : Callable)
    (depends_on : option (list string))
    (params : option (gmap string pyval)) : t :=
  {| name := name;
     func := func;
     depends_on := default [] depends_on;
     params := default ∅ params;
     status := PENDING;
     result := VNone;
     error := None;
     start_time := None;
     end_time := None |}.

Definition set_status (s : JobStatus) (self : t) : t :=
  mk (name self) (func self) (depends_on self) (params self) s
     (result self) (error self) (start_time self) (end_time self).
Definition set_result (v : pyval) (self : t) : t :=
  mk (name self) (func self) (depends_on self) (params self) (status self)
     v (error self) (start_time self) (end_time self).
Definition set_error (e : option string) (self : t) : t :=
  mk (name self) (func self) (depends_on self) (params self) (status self)
     (result self) e (start_time self) (end_time self).
Definition set_start_time (d : option Z) (self : t) : t :=
  mk (name self) (func self) (depends_on self) (params self) (status self)
     (result self) (error self) d (end_time self).
Definition set_end_time (d : option Z) (self : t) : t :=
  mk (name self) (func self) (depends_on self) (params self) (status self)
     (result self) (error self) (start_time self) d.

Section execute.
(** [now i] is what the [i]-th call of [datetime.now()] returns. *)
Variable now : nat -> Z.

(** The two assignments that precede the [try] block. *)
Definition begin (tick : nat) (self : t) : t :=
  set_start_time (Some (now tick)) (set_status RUNNING self).

(** [{**self.params, 'context': context}]: the [context] keyword is the
    pipeline's context, whatever [params] says. *)
Definition execution_params (self : t) : gmap string pyval :=
  delete "context" (params self).

(** [Job.execute]: the result or the raised exception, the job as it is
    left, the context as the callable left it, and the clock reads. *)
Definition execute (self : t) (context : Context) (tick : nat)
    : Res pyval * (t * Context * nat) :=
  let self1 := begin tick self in
  let eff := func self1 (execution_params self1) context in
  let finally := set_end_time (Some (now (S tick))) in
  match outcome eff with
  | Ok v =>
      (Ok v,
       (finally (set_status SUCCESS (set_result v self1)),
        context_after eff, S (S tick)))
  | Raise e =>
      if isinstance_Exception e then
        (Raise e,
         (finally (set_error (Some (str e)) (set_status FAILED self1)),
          context_after eff, S (S tick)))
      else
        (Raise e, (finally self1, context_after eff, S (S tick)))
  end.
End execute.

(** [Job.get_duration]; a [datetime] is always true. *)
Definition get_duration (self : t) : option float :=
  match start_time self, end_time self with
  | Some s, Some e => Some (total_seconds (e - s)%Z)
  | _, _ => None
  end.

End Job.

(* ===================================================================== *)
(** ** Pipeline *)
(* ===================================================================== *)

(** What a run consumes and produces besides the pipeline itself: the
    number of clock reads made so far, and the history of the assignments
    [self.context[key] = value] made by [Pipeline.run] (history only: no
    code reads it). *)
Record Env := mkEnv { ticks : nat; writes : list (string * pyval) }.

(** One entry of the [jobs] mapping of a status summary. *)
Record JobSummary := mkJobSummary {
  js_status : string;
  js_duration : option float;
  js_error : option string
}.

(** The dictionary returned by [get_status_summary]. *)
Record Summary := mkSummary {
  sm_pipeline : string;
  sm_total_jobs : nat;
  sm_status_counts : list (string * nat);
  sm_total_duration : float;
  sm_jobs : list (string * JobSummary)
}.

Module Pipeline.

Record t := mk {
  name : string;
  jobs : list (string * Job.t);
  context : Context
}.

(** [Pipeline.__init__] *)
Definition init (name : string) : t := mk name [] ∅.

Definition set_jobs (js : list (string * Job.t)) (self : t) : t :=
  mk (name self) js (context self).
Definition set_context (c : Context) (self : t) : t :=
  mk (name self) (jobs self) c.

Definition duplicate_job (job_name : string) : PyExc :=
  mkExc ValueError ("Job '" ++ job_name ++ "' already exists in pipeline")%string.

Definition missing_dependency (job_name : string) : PyExc :=
  mkExc ValueError ("Job '" ++ job_name ++ "' not found in pipeline")%string.

(** [Pipeline.add_job] *)
Definition add_job (job : Job.t) : M t unit :=
  fun self =>
    if dict_contains (Job.name job) (jobs self) then
      (Raise (duplicate_job (Job.name job)), self)
    else
      (Ok tt, set_jobs (dict_set (Job.name job) job (jobs self)) self).

(** [Pipeline.remove_job] *)
Definition remove_job (job_name : string) : M t unit :=
  fun self =>
    if dict_contains job_name (jobs self) then
      (Ok tt, set_jobs (dict_del job_name (jobs self)) self)
    else (Ok tt, self).

(** The nested function [visit] of [get_execution_order]; the state is
    the pair of the closure variables [visited] and [ordered], and
    [depth] is the number of frames the interpreter still allows. *)
Fixpoint visit (js : list (string * Job.t)) (depth : nat) (job_name : string)
    : M (gset string * list string) unit :=
  match depth with
  | O => raise recursion_error
  | S depth' =>
      let! st := get in
      if decide (job_name ∈ st.1) then ret tt
      else
        match dict_get job_name js with
        | None => raise (missing_dependency job_name)
        | Some job =>
            for_each (visit js depth') (Job.depends_on job) ;;;
            modify (fun st' : gset string * list string =>
                      ({[job_name]} ∪ st'.1, st'.2 ++ [job_name]))
        end
  end.

(** [Pipeline.get_execution_order], under a given recursion limit. *)
Definition get_execution_order (recursion_limit : nat) (self : t)
    : Res (list string) :=
  match for_each (visit (jobs self) recursion_limit)
                 (dict_keys (jobs self)) (∅, []) with
  | (Ok _, (_, ordered)) => Ok ordered
  | (Raise e, _) => Raise e
  end.

(** The context key under which a job's result is stored. *)
Definition result_key (job_name : string) : string :=
  ("job_" ++ job_name ++ "_result")%string.

(** An assignment to an attribute of the job stored under [job_name]. *)
Definition update_job (job_name : string) (f : Job.t -> Job.t) (self : t) : t :=
  match dict_get job_name (jobs self) with
  | Some job => set_jobs (dict_set job_name (f job) (jobs self)) self
  | None => self
  end.

(** The dependency check of [run]: the value of [can_run] after the
    inner loop. *)
Fixpoint check_dependencies (job_name : string) (deps : list string)
    : M t bool :=
  match deps with
  | [] => ret true
  | dep_name :: rest =>
      fun self =>
        match dict_get dep_name (jobs self) with
        | None => (Raise (key_error dep_name), self)
        | Some dep_job =>
            if decide (Job.status dep_job = SUCCESS) then
              check_dependencies job_name rest self
            else
              (Ok false, update_job job_name (Job.set_status SKIPPED) self)
        end
  end.

(** [self.context.update(initial_context)], guarded by its truth value. *)
Definition merge_initial (initial_context : option Context) (self : t) : t :=
  match initial_context with
  | Some c =>
      if decide (c = ∅) then self else set_context (c ∪ context self) self
  | None => self
  end.

Section run.
Variable now : nat -> Z.
Variable recursion_limit : nat.

(** The body of the main loop of [run]. *)
Definition run_job (job_name : string) : M (t * Env) unit :=
  fun '(self, env) =>
    match dict_get job_name (jobs self) with
    | None => (Raise (key_error job_name), (self, env))
    | Some job =>
        match check_dependencies job_name (Job.depends_on job) self with
        | (Raise e, self') => (Raise e, (self', env))
        | (Ok false, self') => (Ok tt, (self', env))
        | (Ok true, self') =>
            let '(r, (job', ctx', tick')) :=
              Job.execute now job (context self') (ticks env) in
            let self2 :=
              set_context ctx'
                (set_jobs (dict_set job_name job' (jobs self')) self') in
            match r with
            | Ok result =>
                let self3 :=
                  set_context (<[result_key job_name := result]> ctx') self2 in
                let env3 :=
                  mkEnv tick' (writes env ++ [(result_key job_name, result)]) in
                match Job.get_duration job' with
                | Some _ => (Ok tt, (self3, env3))
                | None => (Raise format_type_error, (self3, env3))
                end
            | Raise e => (Raise e, (self2, mkEnv tick' (writes env)))
            end
        end
    end.

(** [Pipeline.run] *)
Definition run (initial_context : option Context) : M (t * Env) Context :=
  fun '(self, env) =>
    let self1 := merge_initial initial_context self in
    match get_execution_order recursion_limit self1 with
    | Raise e => (Raise e, (self1, env))
    | Ok execution_order =>
        match for_each run_job execution_order (self1, env) with
        | (Ok _, (self', env')) => (Ok (context self'), (self', env'))
        | (Raise e, st') => (Raise e, st')
        end
    end.
End run.

(** The accumulation [if duration: total_duration += duration]. *)
Definition add_duration (total : float) (job : Job.t) : float :=
  match Job.get_duration job with
  | Some duration =>
      if float_truthy duration then PrimFloat.add total duration else total
  | None => total
  end.

(** The counting [statuses[job.status] += 1]; [statuses] has every status
    as a key, so the lookup finds one. *)
Definition count_status (statuses : list (JobStatus * nat)) (job : Job.t)
    : list (JobStatus * nat) :=
  match dict_get (Job.status job) statuses with
  | Some n => dict_set (Job.status job) (S n) statuses
  | None => statuses
  end.

(** [Pipeline.get_status_summary] *)
Definition get_status_summary (self : t) : Summary :=
  let statuses0 := map (fun s => (s, 0)) JobStatus_members in
  let statuses := fold_left count_status (dict_values (jobs self)) statuses0 in
  let total_duration :=
    fold_left add_duration (dict_values (jobs self)) 0%float in
  {| sm_pipeline := name self;
     sm_total_jobs := length (jobs self);
     sm_status_counts := map (fun '(s, n) => (JobStatus_value s, n)) statuses;
     sm_total_duration := total_duration;
     sm_jobs :=
       map (fun '(nm, job) =>
              (nm, mkJobSummary (JobStatus_value (Job.status job))
                                (Job.get_duration job) (Job.error job)))
           (jobs self) |}.

End Pipeline.

(* ===================================================================== *)
(** ** ProcessController *)
(* ===================================================================== *)

Module ProcessController.

Record t := mk { pipelines : list (string * Pipeline.t) }.

(** [ProcessController.__init__] *)
Definition init : t := mk [].

(** [ProcessController.add_pipeline] *)
Definition add_pipeline (pipeline : Pipeline.t) : M t unit :=
  fun self =>
    (Ok tt, mk (dict_set (Pipeline.name pipeline) pipeline (pipelines self))).

(** [ProcessController.get_pipeline] *)
Definition get_pipeline (name : string) (self : t) : option Pipeline.t :=
  dict_get name (pipelines self).

Definition pipeline_not_found (name : string) : PyExc :=
  mkExc ValueError ("Pipeline '" ++ name ++ "' not found")%string.

(** The dictionary [{'error': str(e)}]. *)
Definition error_entry (e : PyExc) : Context := {[ "error" := VStr (str e) ]}.

Section run.
Variable now : nat -> Z.
Variable recursion_limit : nat.

(** [ProcessController.run_pipeline] *)
Definition run_pipeline (name : string) (context : option Context)
    : M (t * Env) Context :=
  fun '(self, env) =>
    match dict_get name (pipelines self) with
    | None => (Raise (pipeline_not_found name), (self, env))
    | Some pipeline =>
        let '(r, (pipeline', env')) :=
          Pipeline.run now recursion_limit context (pipeline, env) in
        (r, (mk (dict_set name pipeline' (pipelines self)), env'))
    end.

(** The loop of [run_all_pipelines] over [self.pipelines.items()]: the
    pipelines still to run, those already run, and [results]. *)
Fixpoint run_all_loop (context : option Context)
    (todo done : list (string * Pipeline.t))
    (results : list (string * Context)) (env : Env)
    : Res (list (string * Context)) * (list (string * Pipeline.t) * Env) :=
  match todo with
  | [] => (Ok results, (done, env))
  | (name, pipeline) :: rest =>
      match Pipeline.run now recursion_limit context (pipeline, env) with
      | (Ok ctx, (pipeline', env')) =>
          run_all_loop context rest (done ++ [(name, pipeline')])
            (dict_set name ctx results) env'
      | (Raise e, (pipeline', env')) =>
          if isinstance_Exception e then
            run_all_loop context rest (done ++ [(name, pipeline')])
              (dict_set name (error_entry e) results) env'
          else
            (Raise e, (done ++ (name, pipeline') :: rest, env'))
      end
  end.

(** [ProcessController.run_all_pipelines] *)
Definition run_all_pipelines (context : option Context)
    : M (t * Env) (list (string * Context)) :=
  fun '(self, env) =>
    let '(r, (pipelines', env')) :=
      run_all_loop context (pipelines self) [] [] env in
    (r, (mk pipelines', env')).
End run.

(** [ProcessController.get_all_status] *)
Definition get_all_status (self : t) : list (string * Summary) :=
  map (fun '(name, pipeline) => (name, Pipeline.get_status_summary pipeline))
      (pipelines self).

End ProcessController.

(* ===================================================================== *)
(** ** The dependency graph *)
(* ===================================================================== *)

(** [depends js k d]: the job stored under [k] lists [d] in its
    [depends_on]. *)
Definition depends (js : list (string * Job.t)) (k d : string) : Prop :=
  ∃ job, dict_get k js = Some job ∧ d ∈ Job.depends_on job.

(** Direct or transitive dependency. *)
Definition depends_trans (js : list (string * Job.t)) : relation string :=
  tc (depends js).

Definition has_cycle (js : list (string * Job.t)) : Prop :=
  ∃ k, depends_trans js k k.

Definition acyclic (js : list (string * Job.t)) : Prop :=
  ∀ k, ¬ depends_trans js k k.

(** Every [depends_on] entry names a job of the pipeline. *)
Definition deps_present (js : list (string * Job.t)) : Prop :=
  ∀ k d, depends js k d → is_Some (dict_get d js).

(** Some [depends_on] entry names a job that is not in the pipeline. *)
Definition dep_missing (js : list (string * Job.t)) : Prop :=
  ∃ k d, depends js k d ∧ dict_get d js = None.

(** What holds of [visited] and [ordered] between two calls of [visit]. *)
Record order_inv (js : list (string * Job.t)) (st : gset string * list string)
    : Prop := {
  inv_visited : ∀ x, x ∈ st.1 ↔ x ∈ st.2;
  inv_nodup : NoDup st.2;
  inv_keys : ∀ x, x ∈ st.2 → is_Some (dict_get x js);
  inv_deps : ∀ i x d, st.2 !! i = Some x → depends js x d →
               ∃ j, j < i ∧ st.2 !! j = Some d
}.

(** [ordered] grew by names reachable from the roots. *)
Definition extends (js : list (string * Job.t)) (roots : list string)
    (st st' : gset string * list string) : Prop :=
  ∃ added, st'.2 = st.2 ++ added ∧
    ∀ x, x ∈ added → ∃ r, r ∈ roots ∧ rtc (depends js) r x.

(** A computable certificate of acyclicity: a rank that decreases along
    every dependency. *)
Definition ranked (rank : string → nat) (js : list (string * Job.t)) : bool :=
  forallb (fun kj : string * Job.t =>
             forallb (fun d => Nat.ltb (rank d) (rank kj.1))
                     (Job.depends_on kj.2)) js.

Definition deps_presentb (js : list (string * Job.t)) : bool :=
  forallb (fun kj : string * Job.t =>
             forallb (fun d => dict_contains d js) (Job.depends_on kj.2)) js.

(** The position of a name in a list, as a rank. *)
Fixpoint index_of (l : list string) (x : string) : nat :=
  match l with
  | [] => 0
  | y :: rest => if decide (x = y) then 0 else S (index_of rest x)
  end.

Definition all_pending (js : list (string * Job.t)) : Prop :=
  ∀ k job, dict_get k js = Some job → Job.status job = PENDING.

Definition all_pendingb (js : list (string * Job.t)) : bool :=
  forallb (fun kj : string * Job.t => bool_decide (Job.status kj.2 = PENDING)) js.

(** The status of the job stored under a name. *)
Definition status_of (js : list (string * Job.t)) (k : string) : option JobStatus :=
  Job.status <$> dict_get k js.

(** The callable leaves the context it is handed as it found it. *)
Definition leaves_context (f : Callable) : Prop :=
  ∀ kw ctx, context_after (f kw ctx) = ctx.

(** The callable raises nothing that escapes [except Exception]. *)
Definition raises_only_Exception (f : Callable) : Prop :=
  ∀ kw ctx e, outcome (f kw ctx) = Raise e → isinstance_Exception e = true.

(* ===================================================================== *)
(** ** Example pipelines *)
(* ===================================================================== *)

Module Examples.

(** A clock that advances by one second between two reads. *)
Definition clock (i : nat) : Z := (1000000 * Z.of_nat i)%Z.

Definition load : Callable :=
  fun _ ctx => mkEffect (Ok (VDict [("x", VInt 1)])) ctx.

(** [lambda context: 2 * context['job_load_result']['x']] *)
Definition double : Callable :=
  fun _ ctx =>
    match ctx !! "job_load_result" with
    | Some (VDict items) =>
        match dict_get "x" items with
        | Some (VInt n) => mkEffect (Ok (VInt (2 * n))) ctx
        | Some _ => mkEffect (Raise (mkExc TypeError "unsupported operand")) ctx
        | None => mkEffect (Raise (key_error "x")) ctx
        end
    | Some _ => mkEffect (Raise (mkExc TypeError "not subscriptable")) ctx
    | None => mkEffect (Raise (key_error "job_load_result")) ctx
    end.

Definition noop : Callable := fun _ ctx => mkEffect (Ok VNone) ctx.

(** [raise RuntimeError("boom")] *)
Definition failing : Callable :=
  fun _ ctx => mkEffect (Raise (mkExc OtherException "boom")) ctx.

(** A body interrupted by [KeyboardInterrupt]. *)
Definition interrupted : Callable :=
  fun _ ctx => mkEffect (Raise (mkExc BaseExceptionOnly "")) ctx.

Definition job_load : Job.t := Job.init "load" load None None.
Definition job_double : Job.t := Job.init "double" double (Some ["load"]) None.

(** The two-job pipeline: [load], then [double], which depends on it. *)
Definition two_jobs : Pipeline.t :=
  Pipeline.mk "two" [("load", job_load); ("double", job_double)] ∅.

(** [load], [process] after [load], [save] after [process], inserted in
    the opposite order. *)
Definition three_jobs : Pipeline.t :=
  Pipeline.mk "three"
    [("save", Job.init "save" noop (Some ["process"]) None);
     ("process", Job.init "process" noop (Some ["load"]) None);
     ("load", Job.init "load" noop None None)] ∅.

(** [first] fails; [second] depends on it; [third] is independent. *)
Definition failing_pipeline : Pipeline.t :=
  Pipeline.mk "failing"
    [("first", Job.init "first" failing None None);
     ("second", Job.init "second" noop (Some ["first"]) None);
     ("third", Job.init "third" noop None None)] ∅.

Definition interrupted_pipeline : Pipeline.t :=
  Pipeline.mk "interrupted"
    [("only", Job.init "only" interrupted None None)] ∅.

(** A job that names an absent job and then itself. *)
Definition ghost_then_self : Pipeline.t :=
  Pipeline.mk "ghost_then_self"
    [("a", Job.init "a" noop (Some ["ghost"; "a"]) None)] ∅.

(** A job that names itself and then an absent job. *)
Definition self_then_ghost : Pipeline.t :=
  Pipeline.mk "self_then_ghost"
    [("a", Job.init "a" noop (Some ["a"; "ghost"]) None)] ∅.

(** A job with an absent dependency, after a job without dependencies. *)
Definition missing_pipeline : Pipeline.t :=
  Pipeline.mk "missing"
    [("first", Job.init "first" noop None None);
     ("second", Job.init "second" noop (Some ["ghost"]) None)] ∅.

(** Two jobs that depend on each other. *)
Definition two_cycle : Pipeline.t :=
  Pipeline.mk "two_cycle"
    [("a", Job.init "a" noop (Some ["b"]) None);
     ("b", Job.init "b" noop (Some ["a"]) None)] ∅.

Definition env0 : Env := mkEnv 0 [].

(** Three independent jobs, and the same three inserted in the opposite
    order. *)
Definition abc : Pipeline.t :=
  Pipeline.mk "abc"
    [("a", Job.init "a" noop None None);
     ("b", Job.init "b" noop None None);
     ("c", Job.init "c" noop None None)] ∅.
Definition cba : Pipeline.t :=
  Pipeline.mk "cba"
    [("c", Job.init "c" noop None None);
     ("b", Job.init "b" noop None None);
     ("a", Job.init "a" noop None None)] ∅.

(** Clock reads under which [a] takes 0.1 s, [b] 0.2 s and [c] 0.3 s, in
    the run of [abc] and in the run of [cba]. *)
Definition clock_abc (i : nat) : Z :=
  nth i [0; 100000; 100000; 300000; 300000; 600000]%Z 0%Z.
Definition clock_cba (i : nat) : Z :=
  nth i [0; 300000; 300000; 500000; 500000; 600000]%Z 0%Z.

Definition abc_after_run : Pipeline.t :=
  (Pipeline.run clock_abc 10 None (abc, env0)).2.1.
Definition cba_after_run : Pipeline.t :=
  (Pipeline.run clock_cba 10 None (cba, env0)).2.1.

(** The jobs of [abc], after its run, added to a new pipeline in the
    opposite order. *)
Definition cba_readded : Pipeline.t :=
  (for_each Pipeline.add_job
     (reverse (dict_values (Pipeline.jobs abc_after_run)))
     (Pipeline.init "cba")).2.

(** A controller whose first pipeline is interrupted, and one whose first
    pipeline fails with an [Exception]. *)
Definition interrupted_controller : ProcessController.t :=
  ProcessController.mk
    [("interrupted", interrupted_pipeline); ("two", two_jobs)].
Definition failing_controller : ProcessController.t :=
  ProcessController.mk
    [("failing", failing_pipeline); ("two", two_jobs)].

(** The five jobs of the customer integration demo, in the order in
    which it adds them. *)
Definition demo_jobs : Pipeline.t :=
  Pipeline.mk "customer_integration"
    [("load", Job.init "load" noop None None);
     ("normalize", Job.init "normalize" noop (Some ["load"]) None);
     ("metrics", Job.init "metrics" noop (Some ["normalize"]) None);
     ("export", Job.init "export" noop (Some ["normalize"; "metrics"]) None);
     ("privacy", Job.init "privacy" noop (Some ["normalize"]) None)] ∅.

(** The two-job pipeline with an entry already in its context, and an
    initial context for its run. *)
Definition two_jobs_with_context : Pipeline.t :=
  Pipeline.mk "two" [("load", job_load); ("double", job_double)]
    {[ "source" := VStr "disk"; "mode" := VStr "old" ]}.
Definition initial_mode : Context := {[ "mode" := VStr "new" ]}.

(** A controller with the two-job pipeline and the three-job pipeline. *)
Definition two_three_controller : ProcessController.t :=
  ProcessController.mk [("two", two_jobs); ("three", three_jobs)].

(** A controller whose first pipeline has a dependency cycle. *)
Definition cyclic_controller : ProcessController.t :=
  ProcessController.mk [("two_cycle", two_cycle); ("two", two_jobs)].

End Examples.

(* ===================================================================== *)
(** ** One iteration of the main loop, case by case *)
(* ===================================================================== *)

(** The parts of a job that no method assigns after construction. *)
Definition static (job : Job.t) : string * Callable * list string * gmap string pyval :=
  (Job.name job, Job.func job, Job.depends_on job, Job.params job).

Definition statics (js : list (string * Job.t))
    : list (string * (string * Callable * list string * gmap string pyval)) :=
  map (fun kj : string * Job.t => (kj.1, static kj.2)) js.

(** The call that [execute] makes. *)
Definition call (job : Job.t) (ctx : Context) : Effect :=
  Job.func job (Job.execution_params job) ctx.

(** The job as [execute] leaves it when the callable returned [v]. *)
Definition succeeded (now : nat → Z) (tick : nat) (v : pyval) (job : Job.t) : Job.t :=
  Job.mk (Job.name job) (Job.func job) (Job.depends_on job) (Job.params job)
    SUCCESS v (Job.error job) (Some (now tick)) (Some (now (S tick))).

(** The job as [execute] leaves it when the callable raised [e]. *)
Definition failed (now : nat → Z) (tick : nat) (e : PyExc) (job : Job.t) : Job.t :=
  if isinstance_Exception e then
    Job.mk (Job.name job) (Job.func job) (Job.depends_on job) (Job.params job)
      FAILED (Job.result job) (Some (str e)) (Some (now tick)) (Some (now (S tick)))
  else
    Job.mk (Job.name job) (Job.func job) (Job.depends_on job) (Job.params job)
      RUNNING (Job.result job) (Job.error job) (Some (now tick)) (Some (now (S tick))).

(** The five ways an iteration of the loop of [run] can go. *)
Inductive job_step (now : nat → Z) (k : string) (self : Pipeline.t) (env : Env)
  : Res unit → Pipeline.t * Env → Prop :=
| step_unknown :
  dict_get k (Pipeline.jobs self) = None →
  job_step now k self env (Raise (key_error k)) (self, env)
| step_dep_unknown job d :
  dict_get k (Pipeline.jobs self) = Some job →
  d ∈ Job.depends_on job →
  dict_get d (Pipeline.jobs self) = None →
  job_step now k self env (Raise (key_error d)) (self, env)
| step_skip job d dep_job :
  dict_get k (Pipeline.jobs self) = Some job →
  d ∈ Job.depends_on job →
  dict_get d (Pipeline.jobs self) = Some dep_job →
  Job.status dep_job ≠ SUCCESS →
  job_step now k self env (Ok tt)
    (Pipeline.update_job k (Job.set_status SKIPPED) self, env)
| step_success job v :
  dict_get k (Pipeline.jobs self) = Some job →
  (∀ d, d ∈ Job.depends_on job →
        status_of (Pipeline.jobs self) d = Some SUCCESS) →
  outcome (call job (Pipeline.context self)) = Ok v →
  job_step now k self env (Ok tt)
    (Pipeline.mk (Pipeline.name self)
       (dict_set k (succeeded now (ticks env) v job) (Pipeline.jobs self))
       (<[Pipeline.result_key k := v]>
          (context_after (call job (Pipeline.context self)))),
     mkEnv (S (S (ticks env))) (writes env ++ [(Pipeline.result_key k, v)]))
| step_failure job e :
  dict_get k (Pipeline.jobs self) = Some job →
  (∀ d, d ∈ Job.depends_on job →
        status_of (Pipeline.jobs self) d = Some SUCCESS) →
  outcome (call job (Pipeline.context self)) = Raise e →
  job_step now k self env (Raise e)
    (Pipeline.mk (Pipeline.name self)
       (dict_set k (failed now (ticks env) e job) (Pipeline.jobs self))
       (context_after (call job (Pipeline.context self))),
     mkEnv (S (S (ticks env))) (writes env)).

(* ===================================================================== *)
(** ** Notions used to state the properties *)
(* ===================================================================== *)

(** The replay of a history of assignments on a context. *)
Definition replay (ws : list (string * pyval)) (ctx : Context) : Context :=
  foldl (λ c kv, <[kv.1 := kv.2]> c) ctx ws.

(** The callables of all the jobs leave the context as they found it. *)
Definition callables_leave_context (js : list (string * Job.t)) : Prop :=
  ∀ k job, dict_get k js = Some job → leaves_context (Job.func job).

(** The number of jobs with a given status. *)
Definition count_with_status (st : JobStatus) (js : list (string * Job.t)) : nat :=
  length (filter (λ job, Job.status job = st) (dict_values js)).

(** The recorded durations, in insertion order. *)
Definition recorded_durations (js : list (string * Job.t)) : list float :=
  omap Job.get_duration (dict_values js).

(** The sum of the recorded durations as exact microsecond counts. *)
Definition duration_us (job : Job.t) : Z :=
  match Job.start_time job, Job.end_time job with
  | Some s, Some e => (e - s)%Z
  | _, _ => 0%Z
  end.

Definition exact_total_us (js : list (string * Job.t)) : Z :=
  foldr (λ job acc, (duration_us job + acc)%Z) 0%Z (dict_values js).

(** The behaviour that the specification describes for
    [run_all_pipelines], written from its words and not from the code: every
    pipeline is run, in insertion order, and its entry is its final context
    or the error dictionary of the exception it raised. *)
Fixpoint run_each_recording (now : nat → Z) (limit : nat) (ic : option Context)
    (items : list (string * Pipeline.t)) (env : Env)
    : list (string * Context) * (list (string * Pipeline.t) * Env) :=
  match items with
  | [] => ([], ([], env))
  | (name, pipeline) :: rest =>
      let '(r, (pipeline', env1)) := Pipeline.run now limit ic (pipeline, env) in
      let entry :=
        match r with
        | Ok ctx => ctx
        | Raise e => ProcessController.error_entry e
        end in
      let '(results, (rest', env2)) := run_each_recording now limit ic rest env1 in
      ((name, entry) :: results, ((name, pipeline') :: rest', env2))
  end.

(** No callable of any job of any pipeline raises an exception that
    escapes [except Exception]. *)
Definition callables_raise_only_Exception (ps : list (string * Pipeline.t)) : Prop :=
  Forall (λ np : string * Pipeline.t,
            Forall (λ kj : string * Job.t, raises_only_Exception (Job.func kj.2))
                   (Pipeline.jobs np.2)) ps.

(** Every job is stored under its own name, as [add_job] stores it. *)
Definition keyed_by_name (js : list (string * Job.t)) : Prop :=
  Forall (λ kj : string * Job.t, Job.name kj.2 = kj.1) js.

(** Every job was inserted after all the jobs it depends on; [seen] holds
    the names inserted so far. *)
Fixpoint deps_inserted_before (seen : list string) (js : list (string * Job.t))
    : bool :=
  match js with
  | [] => true
  | (k, job) :: rest =>
      forallb (λ d, bool_decide (d ∈ seen)) (Job.depends_on job)
      && deps_inserted_before (seen ++ [k]) rest
  end.

(** The entry of a job in the per-job breakdown of a status summary. *)
Definition job_summary (job : Job.t) : JobSummary :=
  mkJobSummary (JobStatus_value (Job.status job)) (Job.get_duration job)
               (Job.error job).

(* ===================================================================== *)
(** ** Facts about dictionaries and loops *)
(* ===================================================================== *)

Section odict_facts.
Context {K : Type} `{EqDecision K} {V : Type}.
Implicit Types (d : list (K * V)) (k : K) (v : V).

Lemma dict_get_Some_elem k v d : dict_get k d = Some v → (k, v) ∈ d.
Proof.
  induction d as [|[k' v'] d IH]; simpl; [done|].
  case_decide as E.
  - intros [= ->]. subst. left.
  - intros G. right. auto.
Qed.

Lemma dict_get_is_Some k d : is_Some (dict_get k d) ↔ k ∈ dict_keys d.
Proof.
  unfold dict_keys. induction d as [|[k' v'] d IH]; simpl.
  - split; [intros [? [=]] | intros E; inversion E].
  - case_decide as E.
    + subst. split; [intros _; left | eauto].
    + rewrite IH. split; [intros G; by right|].
      intros G. apply elem_of_cons in G as [G|G]; [done|exact G].
Qed.

Lemma dict_get_None k d : dict_get k d = None ↔ k ∉ dict_keys d.
Proof.
  rewrite <- dict_get_is_Some. rewrite eq_None_not_Some. done.
Qed.

Lemma dict_contains_true k d : dict_contains k d = true ↔ k ∈ dict_keys d.
Proof.
  rewrite <- dict_get_is_Some. unfold dict_contains.
  destruct (dict_get k d); split; try done; eauto; by intros [? [=]].
Qed.

Lemma dict_get_set_eq k v d : dict_get k (dict_set k v d) = Some v.
Proof.
  induction d as [|[k' v'] d IH]; simpl.
  - by rewrite decide_True.
  - case_decide as E; simpl.
    + by rewrite decide_True.
    + by rewrite decide_False.
Qed.

Lemma dict_get_set_ne k k' v d :
  k ≠ k' → dict_get k' (dict_set k v d) = dict_get k' d.
Proof.
  intros Hne. induction d as [|[k0 v0] d IH]; simpl.
  - by rewrite decide_False.
  - case_decide as E; simpl.
    + subst k0. by rewrite !decide_False.
    + case_decide; [done | exact IH].
Qed.

Lemma dict_keys_set_present k v d :
  is_Some (dict_get k d) → dict_keys (dict_set k v d) = dict_keys d.
Proof.
  unfold dict_keys. induction d as [|[k0 v0] d IH]; simpl.
  - intros [? [=]].
  - case_decide as E; csimpl; [done|]. intros G. f_equal. by apply IH.
Qed.

Lemma dict_set_absent k v d :
  dict_get k d = None → dict_set k v d = d ++ [(k, v)].
Proof.
  induction d as [|[k0 v0] d IH]; simpl; [done|].
  case_decide as E; [done|]. intros G. by rewrite IH.
Qed.

Lemma length_dict_keys d : length (dict_keys d) = length d.
Proof. unfold dict_keys. by rewrite length_fmap. Qed.
End odict_facts.

Section for_each_facts.
Context {S A : Type}.
Implicit Types (body : A → M S unit) (l : list A).

Lemma for_each_cons body x l s :
  for_each body (x :: l) s =
    match body x s with
    | (Ok _, s') => for_each body l s'
    | (Raise e, s') => (Raise e, s')
    end.
Proof. reflexivity. Qed.

Lemma for_each_app body l1 l2 s :
  for_each body (l1 ++ l2) s =
    match for_each body l1 s with
    | (Ok _, s') => for_each body l2 s'
    | (Raise e, s') => (Raise e, s')
    end.
Proof.
  revert s. induction l1 as [|x l1 IH]; intros s; [done|].
  simpl app. rewrite !for_each_cons.
  destruct (body x s) as [[[]|e] s']; [apply IH | done].
Qed.

(** A loop that raises does so in one of its iterations, after the
    iterations before it have completed. *)
Lemma for_each_raise body l s e s' :
  for_each body l s = (Raise e, s') →
  ∃ l1 x l2 s1,
    l = l1 ++ x :: l2 ∧ for_each body l1 s = (Ok tt, s1) ∧
    body x s1 = (Raise e, s').
Proof.
  revert s. induction l as [|x l IH]; intros s; [done|].
  rewrite for_each_cons.
  destruct (body x s) as [[[]|e0] s0] eqn:Hb.
  - intros G. destruct (IH _ G) as (l1 & y & l2 & s1 & -> & G1 & G2).
    exists (x :: l1), y, l2, s1. split; [done|]. split; [|done].
    by rewrite for_each_cons, Hb.
  - intros [= -> ->]. by exists [], x, l, s.
Qed.

(** Invariant rule for a loop that completes: the invariant speaks of
    the iterations already made. *)
Lemma for_each_ok_inv body (I : list A → S → Prop) l s s' :
  I [] s →
  (∀ l1 x l2 s1 s2,
      l = l1 ++ x :: l2 → I l1 s1 → body x s1 = (Ok tt, s2) →
      I (l1 ++ [x]) s2) →
  for_each body l s = (Ok tt, s') → I l s'.
Proof.
  intros H0 Hstep.
  assert (G : ∀ l2 l1 s1, l = l1 ++ l2 → I l1 s1 →
              for_each body l2 s1 = (Ok tt, s') → I l s').
  { induction l2 as [|x l2 IH]; intros l1 s1 El Hi.
    - intros [= <-]. by rewrite El, app_nil_r.
    - rewrite for_each_cons.
      destruct (body x s1) as [[[]|e0] s0] eqn:Hb; [|done].
      intros G. apply (IH (l1 ++ [x]) s0); [by rewrite <- app_assoc| |done].
      eapply Hstep; eauto. }
  intros G'. by apply (G l [] s).
Qed.
End for_each_facts.

(* ===================================================================== *)
(** ** The depth-first traversal *)
(* ===================================================================== *)

Section visit_facts.
Variable js : list (string * Job.t).
Implicit Types (st : gset string * list string) (k d x : string).

Lemma visit_S depth k st :
  Pipeline.visit js (S depth) k st =
    if decide (k ∈ st.1) then (Ok tt, st)
    else match dict_get k js with
         | None => (Raise (Pipeline.missing_dependency k), st)
         | Some job =>
             match for_each (Pipeline.visit js depth) (Job.depends_on job) st with
             | (Ok _, st1) => (Ok tt, ({[k]} ∪ st1.1, st1.2 ++ [k]))
             | (Raise e, st1) => (Raise e, st1)
             end
         end.
Proof.
  simpl. unfold bind at 1. unfold get. case_decide; [done|].
  destruct (dict_get k js) as [job|]; [|done].
  unfold bind. by destruct (for_each _ _ _) as [[[]|e] st1].
Qed.

Lemma order_inv_empty : order_inv js (∅, []).
Proof.
  split; simpl.
  - intros x. split; [set_solver | intros E; inversion E].
  - constructor.
  - intros x E. inversion E.
  - intros i x d E. by rewrite lookup_nil in E.
Qed.

Lemma inv_deps_trans st i x d :
  order_inv js st → st.2 !! i = Some x → depends_trans js x d →
  ∃ j, j < i ∧ st.2 !! j = Some d.
Proof.
  intros Hinv Hi Htc. revert i Hi.
  induction Htc as [x d Hd | x y d Hd Htc IH]; intros i Hi.
  - by eapply inv_deps.
  - destruct (inv_deps _ _ Hinv _ _ _ Hi Hd) as (j & Hj & Hjy).
    destruct (IH _ Hjy) as (j' & Hj' & Hjd). exists j'. split; [lia|done].
Qed.

Lemma order_inv_no_cycle st x :
  order_inv js st → x ∈ st.2 → ¬ depends_trans js x x.
Proof.
  intros Hinv Hx Htc.
  apply list_elem_of_lookup in Hx as [i Hi].
  destruct (inv_deps_trans _ _ _ _ Hinv Hi Htc) as (j & Hj & Hjx).
  pose proof (NoDup_lookup _ _ _ _ (inv_nodup _ _ Hinv) Hi Hjx). lia.
Qed.

Lemma extends_visited st st' roots x :
  order_inv js st → order_inv js st' → extends js roots st st' →
  x ∈ st.1 → x ∈ st'.1.
Proof.
  intros H1 H2 (added & E & _) Hx.
  apply (inv_visited _ _ H2). rewrite E. apply elem_of_app. left.
  by apply (inv_visited _ _ H1).
Qed.

Lemma for_each_visit_ok (body : string → M (gset string * list string) unit) :
  (∀ k st st', order_inv js st → body k st = (Ok tt, st') →
     order_inv js st' ∧ k ∈ st'.1 ∧ extends js [k] st st') →
  ∀ l st st', order_inv js st → for_each body l st = (Ok tt, st') →
    order_inv js st' ∧ (∀ x, x ∈ l → x ∈ st'.1) ∧ extends js l st st'.
Proof.
  intros Hbody. induction l as [|k l IH]; intros st st' Hinv.
  - intros [= <-]. split; [done|]. split; [intros x E; inversion E|].
    exists []. split; [by rewrite app_nil_r | intros x E; inversion E].
  - rewrite for_each_cons.
    destruct (body k st) as [[[]|e] st1] eqn:Hb; [|done].
    intros Hrest.
    destruct (Hbody _ _ _ Hinv Hb) as (Hinv1 & Hk & Hext1).
    destruct (IH _ _ Hinv1 Hrest) as (Hinv' & Hl & Hext').
    split; [done|]. split.
    + intros x Hx. apply elem_of_cons in Hx as [->|Hx]; [|by apply Hl].
      by apply (extends_visited st1 st' l k Hinv1 Hinv' Hext').
    + destruct Hext1 as (a1 & E1 & R1). destruct Hext' as (a2 & E2 & R2).
      exists (a1 ++ a2). split; [by rewrite E2, E1, app_assoc|].
      intros x Hx. apply elem_of_app in Hx as [Hx|Hx].
      * destruct (R1 _ Hx) as (r & Hr & Hrx).
        apply list_elem_of_singleton in Hr as ->. exists k. split; [left|done].
      * destruct (R2 _ Hx) as (r & Hr & Hrx). exists r. split; [by right|done].
Qed.

(** A call of [visit] that returns leaves the name visited, has added
    only names reachable from it, and keeps the invariant. *)
Lemma visit_ok depth :
  ∀ k st st', order_inv js st → Pipeline.visit js depth k st = (Ok tt, st') →
    order_inv js st' ∧ k ∈ st'.1 ∧ extends js [k] st st'.
Proof.
  induction depth as [|depth IH]; intros k st st' Hinv; [done|].
  rewrite visit_S. case_decide as Hvis.
  { intros [= <-]. split; [done|]. split; [done|].
    exists []. split; [by rewrite app_nil_r | intros x E; inversion E]. }
  destruct (dict_get k js) as [job|] eqn:Hjob; [|done].
  destruct (for_each _ _ _) as [[[]|e] st1] eqn:Hloop; [|done].
  intros [= <-].
  destruct (for_each_visit_ok _ IH _ _ _ Hinv Hloop) as (Hinv1 & Hdeps & Hext).
  destruct Hext as (added & Eadd & Hreach).
  assert (Hfresh : k ∉ st1.2).
  { intros Hk1. rewrite Eadd in Hk1. apply elem_of_app in Hk1 as [Hk1|Hk1].
    - apply Hvis. by apply (inv_visited _ _ Hinv).
    - destruct (Hreach _ Hk1) as (r & Hr & Hrk).
      apply (order_inv_no_cycle st1 k Hinv1).
      + rewrite Eadd. apply elem_of_app. by right.
      + eapply tc_rtc_r; [|exact Hrk]. apply tc_once. by exists job. }
  split; [|split].
  - split; simpl.
    + intros x. rewrite elem_of_union, elem_of_singleton, elem_of_app,
        list_elem_of_singleton, (inv_visited _ _ Hinv1). tauto.
    + apply NoDup_app. split; [apply (inv_nodup _ _ Hinv1)|].
      split; [|apply NoDup_singleton].
      intros x Hx Hx'. apply list_elem_of_singleton in Hx' as ->. done.
    + intros x Hx. apply elem_of_app in Hx as [Hx|Hx].
      * by apply (inv_keys _ _ Hinv1).
      * apply list_elem_of_singleton in Hx as ->. by rewrite Hjob.
    + intros i x d Hi Hd.
      destruct (decide (i < length st1.2)) as [Hlt|Hge].
      * rewrite lookup_app_l in Hi by done.
        destruct (inv_deps _ _ Hinv1 _ _ _ Hi Hd) as (j & Hj & Hjd).
        exists j. split; [done|]. rewrite lookup_app_l by lia. done.
      * rewrite lookup_app_r in Hi by lia.
        apply list_lookup_singleton_Some in Hi as [_ <-].
        destruct Hd as (job' & Hjob' & Hd). rewrite Hjob in Hjob'.
        injection Hjob' as <-.
        pose proof (Hdeps _ Hd) as Hdv. apply (inv_visited _ _ Hinv1) in Hdv.
        apply list_elem_of_lookup in Hdv as [j Hj].
        exists j. split; [apply lookup_lt_Some in Hj; lia|].
        by rewrite lookup_app_l by (by eapply lookup_lt_Some).
  - simpl. apply elem_of_union. left. by apply elem_of_singleton.
  - exists (added ++ [k]). simpl. split; [by rewrite Eadd, app_assoc|].
    intros x Hx. exists k. split; [left|].
    apply elem_of_app in Hx as [Hx|Hx].
    + destruct (Hreach _ Hx) as (r & Hr & Hrx).
      eapply rtc_l; [|exact Hrx]. by exists job.
    + apply list_elem_of_singleton in Hx as ->. done.
Qed.

(** [visit] raises nothing but [RecursionError] and the [ValueError] for
    a name that is not a job, reached from the name visited. *)
Lemma visit_raise depth :
  ∀ k st e st', Pipeline.visit js depth k st = (Raise e, st') →
    e = recursion_error ∨
    ∃ x, e = Pipeline.missing_dependency x ∧ dict_get x js = None ∧
         rtc (depends js) k x.
Proof.
  induction depth as [|depth IH]; intros k st e st'.
  { intros [= <- _]. by left. }
  rewrite visit_S. case_decide as Hvis; [done|].
  destruct (dict_get k js) as [job|] eqn:Hjob.
  - destruct (for_each _ _ _) as [[[]|e0] st1] eqn:Hloop; [done|].
    intros [= -> ->].
    apply for_each_raise in Hloop as (l1 & d & l2 & s1 & El & _ & Hd).
    destruct (IH _ _ _ _ Hd) as [->|(x & -> & Hx & Hdx)]; [by left|].
    right. exists x. split; [done|]. split; [done|].
    eapply rtc_l; [|exact Hdx]. exists job. split; [done|].
    rewrite El. apply elem_of_app. right. left.
  - intros [= <- _]. right. by exists k.
Qed.

(** The recursion never goes deeper than the number of jobs when no job
    depends on itself, directly or not: the names on the call stack are
    distinct jobs. *)
Lemma visit_no_overflow depth :
  acyclic js →
  ∀ k st stack,
    NoDup stack →
    (∀ a, a ∈ stack → is_Some (dict_get a js)) →
    (∀ a, a ∈ stack → depends_trans js a k) →
    length js < length stack + depth →
    (Pipeline.visit js depth k st).1 ≠ Raise recursion_error.
Proof.
  intros Hacyc. induction depth as [|depth IH]; intros k st stack Hnd Hkeys Hreach Hlen.
  { exfalso.
    assert (length stack ≤ length (dict_keys js)) as Hle.
    { apply submseteq_length, NoDup_submseteq; [done|].
      intros a Ha. by apply dict_get_is_Some, Hkeys. }
    rewrite length_dict_keys in Hle. lia. }
  rewrite visit_S. case_decide as Hvis; [done|].
  destruct (dict_get k js) as [job|] eqn:Hjob; [|done].
  destruct (for_each _ _ _) as [[[]|e0] st1] eqn:Hloop; [done|]. simpl.
  apply for_each_raise in Hloop as (l1 & d & l2 & s1 & El & _ & Hd).
  intros [= ->].
  assert (Hkd : depends js k d).
  { exists job. split; [done|]. rewrite El. apply elem_of_app. right. left. }
  apply (IH d s1 (k :: stack)).
  - constructor; [|done]. intros Hk. by apply (Hacyc k), Hreach.
  - intros a Ha. apply elem_of_cons in Ha as [->|Ha]; [by rewrite Hjob | auto].
  - intros a Ha. apply elem_of_cons in Ha as [->|Ha]; [by apply tc_once|].
    eapply tc_r; [by apply Hreach | done].
  - simpl. lia.
  - by rewrite Hd.
Qed.
End visit_facts.

(* ===================================================================== *)
(** ** The execution order *)
(* ===================================================================== *)

Section order_facts.
Implicit Types (p : Pipeline.t) (order : list string).

Lemma depends_trans_key js k d : depends_trans js k d → is_Some (dict_get k js).
Proof.
  intros Htc.
  inversion Htc as [? ? (job & Hjob & _) | ? ? ? (job & Hjob & _)]; by rewrite Hjob.
Qed.

(** What a returned execution order looks like. *)
Lemma get_execution_order_Ok limit p order :
  Pipeline.get_execution_order limit p = Ok order →
  NoDup order ∧
  (∀ x, x ∈ order ↔ x ∈ dict_keys (Pipeline.jobs p)) ∧
  (∀ i x d, order !! i = Some x → depends_trans (Pipeline.jobs p) x d →
     ∃ j, j < i ∧ order !! j = Some d).
Proof.
  unfold Pipeline.get_execution_order.
  destruct (for_each _ _ _) as [[[]|e] [visited ordered]] eqn:Hloop; [|done].
  intros [= ->].
  destruct (for_each_visit_ok (Pipeline.jobs p) _
              (visit_ok (Pipeline.jobs p) limit) _ _ _
              (order_inv_empty _) Hloop) as (Hinv & Hall & _).
  split; [apply (inv_nodup _ _ Hinv)|]. split.
  - intros x. split.
    + intros Hx. by apply dict_get_is_Some, (inv_keys _ _ Hinv).
    + intros Hx. by apply (inv_visited _ _ Hinv), Hall.
  - intros i x d Hi Hd. by apply (inv_deps_trans _ _ _ _ _ Hinv Hi Hd).
Qed.

(** An execution order is returned only for an acyclic graph whose
    dependencies are all present. *)
Lemma get_execution_order_Ok_graph limit p order :
  Pipeline.get_execution_order limit p = Ok order →
  deps_present (Pipeline.jobs p) ∧ acyclic (Pipeline.jobs p).
Proof.
  intros Hok. destruct (get_execution_order_Ok _ _ _ Hok) as (Hnd & Hkeys & Hdeps).
  split.
  - intros k d Hd.
    assert (k ∈ order) as Hk.
    { apply Hkeys, dict_get_is_Some. destruct Hd as (job & -> & _). done. }
    apply list_elem_of_lookup in Hk as [i Hi].
    destruct (Hdeps i k d Hi (tc_once _ _ _ Hd)) as (j & _ & Hj).
    apply dict_get_is_Some, Hkeys, list_elem_of_lookup. eauto.
  - intros k Hcyc.
    assert (k ∈ order) as Hk.
    { by eapply Hkeys, dict_get_is_Some, depends_trans_key. }
    apply list_elem_of_lookup in Hk as [i Hi].
    destruct (Hdeps i k k Hi Hcyc) as (j & Hlt & Hj).
    pose proof (NoDup_lookup _ _ _ _ Hnd Hi Hj). lia.
Qed.

Lemma get_execution_order_Raise limit p e :
  Pipeline.get_execution_order limit p = Raise e →
  e = recursion_error ∨
  ∃ x, e = Pipeline.missing_dependency x ∧
       dict_get x (Pipeline.jobs p) = None ∧
       ∃ k, is_Some (dict_get k (Pipeline.jobs p)) ∧
            rtc (depends (Pipeline.jobs p)) k x.
Proof.
  unfold Pipeline.get_execution_order.
  destruct (for_each _ _ _) as [[[]|e0] [visited ordered]] eqn:Hloop; [done|].
  intros [= ->].
  apply for_each_raise in Hloop as (l1 & k & l2 & s1 & El & _ & Hk).
  destruct (visit_raise _ _ _ _ _ _ Hk) as [->|(x & -> & Hx & Hkx)]; [by left|].
  right. exists x. split; [done|]. split; [done|]. exists k. split; [|done].
  apply dict_get_is_Some. rewrite El. apply elem_of_app. right. left.
Qed.

Lemma get_execution_order_no_overflow limit p :
  acyclic (Pipeline.jobs p) → length (Pipeline.jobs p) < limit →
  Pipeline.get_execution_order limit p ≠ Raise recursion_error.
Proof.
  intros Hacyc Hlen. unfold Pipeline.get_execution_order.
  destruct (for_each _ _ _) as [[[]|e0] [visited ordered]] eqn:Hloop; [done|].
  apply for_each_raise in Hloop as (l1 & k & l2 & s1 & El & _ & Hk).
  intros [= ->].
  apply (visit_no_overflow (Pipeline.jobs p) limit Hacyc k s1 []).
  - constructor.
  - intros a Ha. inversion Ha.
  - intros a Ha. inversion Ha.
  - simpl. lia.
  - by rewrite Hk.
Qed.

(** A dependency reached from a job of a pipeline whose dependencies are
    all present is a job. *)
Lemma rtc_depends_present js k x :
  deps_present js → is_Some (dict_get k js) → rtc (depends js) k x →
  is_Some (dict_get x js).
Proof.
  intros Hpres Hk Hrtc. induction Hrtc as [|k y x Hky _ IH]; [done|].
  apply IH. by eapply Hpres.
Qed.

(** With enough frames, an acyclic pipeline with all its dependencies
    gets an execution order. *)
Lemma get_execution_order_returns limit p :
  acyclic (Pipeline.jobs p) → deps_present (Pipeline.jobs p) →
  length (Pipeline.jobs p) < limit →
  ∃ order, Pipeline.get_execution_order limit p = Ok order.
Proof.
  intros Hacyc Hpres Hlen.
  destruct (Pipeline.get_execution_order limit p) as [order|e] eqn:Hres; [eauto|].
  exfalso.
  destruct (get_execution_order_Raise _ _ _ Hres) as [->|(x & -> & Hx & k & Hk & Hkx)].
  - by apply (get_execution_order_no_overflow limit p).
  - pose proof (rtc_depends_present _ _ _ Hpres Hk Hkx) as [? Hsome]. congruence.
Qed.

Lemma ranked_acyclic rank js : ranked rank js = true → acyclic js.
Proof.
  intros Hr.
  assert (Hstep : ∀ k d, depends js k d → rank d < rank k).
  { intros k d (job & Hjob & Hd). unfold ranked in Hr.
    rewrite forallb_forall in Hr.
    apply dict_get_Some_elem, list_elem_of_In in Hjob.
    specialize (Hr _ Hjob). simpl in Hr. rewrite forallb_forall in Hr.
    apply list_elem_of_In in Hd. specialize (Hr _ Hd).
    by apply Nat.ltb_lt in Hr. }
  assert (Htc : ∀ k d, depends_trans js k d → rank d < rank k).
  { intros k d Htc. induction Htc as [k d Hd | k y d Hd _ IH].
    - by apply Hstep.
    - apply Hstep in Hd. lia. }
  intros k Hk. apply Htc in Hk. lia.
Qed.

Lemma deps_presentb_correct js : deps_presentb js = true → deps_present js.
Proof.
  intros Hb k d (job & Hjob & Hd). unfold deps_presentb in Hb.
  rewrite forallb_forall in Hb.
  apply dict_get_Some_elem, list_elem_of_In in Hjob.
  specialize (Hb _ Hjob). simpl in Hb. rewrite forallb_forall in Hb.
  apply list_elem_of_In in Hd. specialize (Hb _ Hd).
  by apply dict_get_is_Some, dict_contains_true.
Qed.

Lemma all_pendingb_correct js : all_pendingb js = true → all_pending js.
Proof.
  intros Hb k job Hjob. unfold all_pendingb in Hb.
  rewrite forallb_forall in Hb.
  apply dict_get_Some_elem, list_elem_of_In in Hjob.
  specialize (Hb _ Hjob). by apply bool_decide_eq_true in Hb.
Qed.
End order_facts.

(* ===================================================================== *)
(** ** Job.execute and the loop body *)
(* ===================================================================== *)

Section execute_facts.
Variable now : nat → Z.

Lemma execute_returns job ctx tick v :
  outcome (call job ctx) = Ok v →
  Job.execute now job ctx tick =
    (Ok v, (succeeded now tick v job, context_after (call job ctx), S (S tick))).
Proof.
  unfold Job.execute, call.
  change (Job.func (Job.begin now tick job)) with (Job.func job).
  change (Job.execution_params (Job.begin now tick job))
    with (Job.execution_params job).
  by intros ->.
Qed.

Lemma execute_raises job ctx tick e :
  outcome (call job ctx) = Raise e →
  Job.execute now job ctx tick =
    (Raise e, (failed now tick e job, context_after (call job ctx), S (S tick))).
Proof.
  unfold Job.execute, call, failed.
  change (Job.func (Job.begin now tick job)) with (Job.func job).
  change (Job.execution_params (Job.begin now tick job))
    with (Job.execution_params job).
  intros ->. by destruct (isinstance_Exception e).
Qed.

Lemma check_dependencies_cases k deps self r self' :
  Pipeline.check_dependencies k deps self = (r, self') →
  (r = Ok true ∧ self' = self ∧
     ∀ d, d ∈ deps → status_of (Pipeline.jobs self) d = Some SUCCESS) ∨
  (r = Ok false ∧
     self' = Pipeline.update_job k (Job.set_status SKIPPED) self ∧
     ∃ d dep_job, d ∈ deps ∧ dict_get d (Pipeline.jobs self) = Some dep_job ∧
                  Job.status dep_job ≠ SUCCESS) ∨
  (∃ d, r = Raise (key_error d) ∧ self' = self ∧ d ∈ deps ∧
        dict_get d (Pipeline.jobs self) = None).
Proof.
  induction deps as [|d deps IH]; simpl.
  - intros [= <- <-]. left. split; [done|]. split; [done|].
    intros d Hd. inversion Hd.
  - destruct (dict_get d (Pipeline.jobs self)) as [dep_job|] eqn:Hd.
    + case_decide as Hs.
      * intros G. destruct (IH G) as [(-> & -> & Hall)|[(-> & -> & Hex)|Hex]].
        -- left. split; [done|]. split; [done|].
           intros d' Hd'. apply elem_of_cons in Hd' as [->|Hd']; [|by apply Hall].
           unfold status_of. by rewrite Hd, <- Hs.
        -- right. left. split; [done|]. split; [done|].
           destruct Hex as (d' & dj & Hin & Hget & Hne).
           exists d', dj. split; [by right|done].
        -- right. right. destruct Hex as (d' & -> & -> & Hin & Hget).
           exists d'. repeat split; try done. by right.
      * intros [= <- <-]. right. left. split; [done|]. split; [done|].
        exists d, dep_job. split; [left|done].
    + intros [= <- <-]. right. right. exists d. repeat split; try done. left.
Qed.

(** The loop body does one of the five things of [job_step]; in
    particular the formatting of the duration never fails. *)
Lemma run_job_step k self env r st' :
  Pipeline.run_job now k (self, env) = (r, st') → job_step now k self env r st'.
Proof.
  unfold Pipeline.run_job.
  destruct (dict_get k (Pipeline.jobs self)) as [job|] eqn:Hjob.
  2:{ intros [= <- <-]. by constructor. }
  destruct (Pipeline.check_dependencies _ _ _) as [rc self1] eqn:Hcheck.
  apply check_dependencies_cases in Hcheck
    as [(-> & -> & Hall)|[(-> & -> & d & dj & Hin & Hget & Hne)|(d & -> & -> & Hin & Hget)]].
  - destruct (outcome (call job (Pipeline.context self))) as [v|e] eqn:Hout.
    + rewrite (execute_returns _ _ _ _ Hout). simpl.
      intros [= <- <-]. exact (step_success now k self env job v Hjob Hall Hout).
    + rewrite (execute_raises _ _ _ _ Hout). simpl.
      intros [= <- <-]. exact (step_failure now k self env job e Hjob Hall Hout).
  - intros [= <- <-]. by eapply step_skip.
  - intros [= <- <-]. by eapply step_dep_unknown.
Qed.
End execute_facts.

Section statics_facts.
Implicit Types (js : list (string * Job.t)) (k d : string).

Lemma statics_get k js : dict_get k (statics js) = static <$> dict_get k js.
Proof.
  induction js as [|[k' j] js IH]; simpl; [done|]. by case_decide.
Qed.

Lemma statics_keys js js' : statics js = statics js' → dict_keys js = dict_keys js'.
Proof.
  intros E. apply (f_equal (fmap fst)) in E. unfold statics in E.
  unfold dict_keys. rewrite <- !list_fmap_compose in E. exact E.
Qed.

Lemma statics_is_Some js js' k :
  statics js = statics js' → is_Some (dict_get k js) → is_Some (dict_get k js').
Proof.
  intros E. rewrite !dict_get_is_Some. by rewrite (statics_keys _ _ E).
Qed.

Lemma statics_depends_on js js' k job :
  statics js = statics js' → dict_get k js = Some job →
  ∃ job', dict_get k js' = Some job' ∧ static job' = static job.
Proof.
  intros E Hk. pose proof (statics_get k js) as G. rewrite E, statics_get, Hk in G.
  destruct (dict_get k js') as [job'|]; [|done]. exists job'. split; [done|].
  simpl in G. congruence.
Qed.

Lemma statics_depends js js' k d :
  statics js = statics js' → depends js k d → depends js' k d.
Proof.
  intros E (job & Hjob & Hd).
  destruct (statics_depends_on _ _ _ _ E Hjob) as (job' & Hjob' & Hst).
  exists job'. split; [done|]. unfold static in Hst. by injection Hst as _ _ -> _.
Qed.

Lemma statics_dict_set js k job job' :
  dict_get k js = Some job → static job' = static job →
  statics (dict_set k job' js) = statics js.
Proof.
  intros Hk Hst. induction js as [|[k0 j0] js IH]; simpl in *; [done|].
  case_decide as E; simpl.
  - injection Hk as ->. by rewrite Hst.
  - by rewrite IH.
Qed.

Lemma statics_update_job k f self :
  (∀ job, static (f job) = static job) →
  statics (Pipeline.jobs (Pipeline.update_job k f self)) = statics (Pipeline.jobs self).
Proof.
  intros Hf. unfold Pipeline.update_job.
  destruct (dict_get k (Pipeline.jobs self)) as [job|] eqn:Hk; [|done].
  simpl. by eapply statics_dict_set.
Qed.

Lemma dict_get_update_job_ne k k' f self :
  k ≠ k' →
  dict_get k' (Pipeline.jobs (Pipeline.update_job k f self)) =
  dict_get k' (Pipeline.jobs self).
Proof.
  intros Hne. unfold Pipeline.update_job.
  destruct (dict_get k (Pipeline.jobs self)) as [job|] eqn:Hk; [|done].
  simpl. by apply dict_get_set_ne.
Qed.

Lemma dict_get_update_job_eq k f self job :
  dict_get k (Pipeline.jobs self) = Some job →
  dict_get k (Pipeline.jobs (Pipeline.update_job k f self)) = Some (f job).
Proof.
  intros Hk. unfold Pipeline.update_job. rewrite Hk. simpl.
  apply dict_get_set_eq.
Qed.

Lemma static_succeeded now tick v job : static (succeeded now tick v job) = static job.
Proof. done. Qed.

Lemma static_failed now tick e job : static (failed now tick e job) = static job.
Proof. unfold failed. by destruct (isinstance_Exception e). Qed.
End statics_facts.

Section step_facts.
Variable now : nat → Z.
Implicit Types (self : Pipeline.t) (env : Env) (k : string).

(** The cases of [job_step], as equations. *)
Lemma job_step_inv k self env r st' :
  job_step now k self env r st' →
  (dict_get k (Pipeline.jobs self) = None ∧
     r = Raise (key_error k) ∧ st' = (self, env)) ∨
  (∃ job d,
     dict_get k (Pipeline.jobs self) = Some job ∧ d ∈ Job.depends_on job ∧
     dict_get d (Pipeline.jobs self) = None ∧
     r = Raise (key_error d) ∧ st' = (self, env)) ∨
  (∃ job d dep_job,
     dict_get k (Pipeline.jobs self) = Some job ∧ d ∈ Job.depends_on job ∧
     dict_get d (Pipeline.jobs self) = Some dep_job ∧
     Job.status dep_job ≠ SUCCESS ∧
     r = Ok tt ∧
     st' = (Pipeline.update_job k (Job.set_status SKIPPED) self, env)) ∨
  (∃ job v,
     dict_get k (Pipeline.jobs self) = Some job ∧
     (∀ d, d ∈ Job.depends_on job →
           status_of (Pipeline.jobs self) d = Some SUCCESS) ∧
     outcome (call job (Pipeline.context self)) = Ok v ∧
     r = Ok tt ∧
     st' = (Pipeline.mk (Pipeline.name self)
              (dict_set k (succeeded now (ticks env) v job) (Pipeline.jobs self))
              (<[Pipeline.result_key k := v]>
                 (context_after (call job (Pipeline.context self)))),
            mkEnv (S (S (ticks env)))
                  (writes env ++ [(Pipeline.result_key k, v)]))) ∨
  (∃ job e,
     dict_get k (Pipeline.jobs self) = Some job ∧
     (∀ d, d ∈ Job.depends_on job →
           status_of (Pipeline.jobs self) d = Some SUCCESS) ∧
     outcome (call job (Pipeline.context self)) = Raise e ∧
     r = Raise e ∧
     st' = (Pipeline.mk (Pipeline.name self)
              (dict_set k (failed now (ticks env) e job) (Pipeline.jobs self))
              (context_after (call job (Pipeline.context self))),
            mkEnv (S (S (ticks env))) (writes env))).
Proof.
  destruct 1.
  - by left.
  - right; left. by exists job, d.
  - right; right; left. by exists job, d, dep_job.
  - right; right; right; left. by exists job, v.
  - right; right; right; right. by exists job, e.
Qed.

Lemma job_step_statics k self env r st' :
  job_step now k self env r st' →
  statics (Pipeline.jobs st'.1) = statics (Pipeline.jobs self).
Proof.
  intros Hstep. inversion Hstep; subst; simpl; try done.
  - by apply statics_update_job.
  - eapply statics_dict_set; [done|]. apply static_succeeded.
  - eapply statics_dict_set; [done|]. apply static_failed.
Qed.

Lemma job_step_frame k self env r st' k' :
  job_step now k self env r st' → k ≠ k' →
  dict_get k' (Pipeline.jobs st'.1) = dict_get k' (Pipeline.jobs self).
Proof.
  intros Hstep Hne. inversion Hstep; subst; simpl; try done.
  - by apply dict_get_update_job_ne.
  - by apply dict_get_set_ne.
  - by apply dict_get_set_ne.
Qed.

Lemma job_step_name k self env r st' :
  job_step now k self env r st' → Pipeline.name st'.1 = Pipeline.name self.
Proof.
  intros Hstep. inversion Hstep; subst; simpl; try done.
  unfold Pipeline.update_job. by destruct (dict_get _ _).
Qed.

(** The loop leaves alone the jobs it does not iterate over, and the
    static parts of all of them. *)
Lemma run_jobs_frame l :
  ∀ st r st', for_each (Pipeline.run_job now) l st = (r, st') →
    statics (Pipeline.jobs st'.1) = statics (Pipeline.jobs st.1) ∧
    Pipeline.name st'.1 = Pipeline.name st.1 ∧
    ∀ k', k' ∉ l →
      dict_get k' (Pipeline.jobs st'.1) = dict_get k' (Pipeline.jobs st.1).
Proof.
  induction l as [|k l IH]; intros [self env] r st'.
  - intros [= <- <-]. done.
  - rewrite for_each_cons.
    destruct (Pipeline.run_job now k (self, env)) as [[[]|e] st1] eqn:Hk.
    + intros Hrest. apply run_job_step in Hk.
      destruct (IH _ _ _ Hrest) as (Hs & Hn & Hf).
      split; [|split].
      * rewrite Hs. by eapply job_step_statics.
      * rewrite Hn. by eapply job_step_name.
      * intros k' Hk'. apply not_elem_of_cons in Hk' as [Hne Hk'].
        rewrite (Hf _ Hk'). by eapply job_step_frame.
    + intros [= <- <-]. apply run_job_step in Hk. split; [|split].
      * by eapply job_step_statics.
      * by eapply job_step_name.
      * intros k' Hk'. apply not_elem_of_cons in Hk' as [Hne Hk'].
        by eapply job_step_frame.
Qed.
End step_facts.

(* ===================================================================== *)
(** ** Job.execute and Job.get_duration *)
(* ===================================================================== *)

(** C5 (as amended): [execute] sets [status] to Running and [start_time]
    before the call. When the callable returns a value, that value becomes
    [result], [status] becomes Success and the value is returned. When it
    raises an exception that derives from [Exception], [error] becomes its
    string, [status] becomes Failed and the same exception is raised again.
    An exception that derives from [BaseException] only is not caught: it
    propagates, [status] stays Running and [error] is not assigned. In all
    three outcomes [end_time] is set, so [get_duration] returns the elapsed
    seconds. *)
Theorem execute_outcomes (now : nat → Z) (job : Job.t) (ctx : Context) (tick : nat) :
  Job.status (Job.begin now tick job) = RUNNING ∧
  Job.start_time (Job.begin now tick job) = Some (now tick) ∧
  ∃ job',
    Job.execute now job ctx tick =
      (outcome (call job ctx), (job', context_after (call job ctx), S (S tick))) ∧
    static job' = static job ∧
    Job.start_time job' = Some (now tick) ∧
    Job.end_time job' = Some (now (S tick)) ∧
    Job.get_duration job' = Some (total_seconds (now (S tick) - now tick)%Z) ∧
    match outcome (call job ctx) with
    | Ok v =>
        Job.status job' = SUCCESS ∧ Job.result job' = v ∧
        Job.error job' = Job.error job
    | Raise e =>
        Job.result job' = Job.result job ∧
        if isinstance_Exception e then
          Job.status job' = FAILED ∧ Job.error job' = Some (str e)
        else
          Job.status job' = RUNNING ∧ Job.error job' = Job.error job
    end.
Proof.
  split; [done|]. split; [done|].
  destruct (outcome (call job ctx)) as [v|e] eqn:Hout.
  - exists (succeeded now tick v job). rewrite (execute_returns _ _ _ _ _ Hout).
    by repeat split.
  - exists (failed now tick e job). rewrite (execute_raises _ _ _ _ _ Hout).
    split; [done|]. split; [apply static_failed|].
    unfold failed. by destruct (isinstance_Exception e).
Qed.

(** C5, as stated, fails on a callable interrupted by [KeyboardInterrupt]:
    the exception propagates, but [status] is left Running and [error] is
    left unset. *)
Lemma execute_interrupted_stays_running :
  (Job.execute Examples.clock (Job.init "only" Examples.interrupted None None) ∅ 0).1
    = Raise (mkExc BaseExceptionOnly "") ∧
  Job.status
    (Job.execute Examples.clock (Job.init "only" Examples.interrupted None None) ∅ 0).2.1.1
    = RUNNING ∧
  Job.error
    (Job.execute Examples.clock (Job.init "only" Examples.interrupted None None) ∅ 0).2.1.1
    = None.
Proof. by repeat split. Qed.

(* ===================================================================== *)
(** ** Pipeline.add_job *)
(* ===================================================================== *)

(** C8: [add_job] raises the duplicate-job [ValueError] when a job is
    already stored under the name, and then leaves the pipeline as it was
    (the job first added is still the one stored); otherwise it inserts the
    job, after the jobs already there. *)
Theorem add_job_duplicate_or_insert (p : Pipeline.t) (job : Job.t) :
  (∀ orig, dict_get (Job.name job) (Pipeline.jobs p) = Some orig →
     Pipeline.add_job job p = (Raise (Pipeline.duplicate_job (Job.name job)), p)) ∧
  (dict_get (Job.name job) (Pipeline.jobs p) = None →
     ∃ p', Pipeline.add_job job p = (Ok tt, p') ∧
       Pipeline.jobs p' = Pipeline.jobs p ++ [(Job.name job, job)] ∧
       dict_get (Job.name job) (Pipeline.jobs p') = Some job ∧
       (∀ k, k ≠ Job.name job →
          dict_get k (Pipeline.jobs p') = dict_get k (Pipeline.jobs p)) ∧
       Pipeline.name p' = Pipeline.name p ∧
       Pipeline.context p' = Pipeline.context p) ∧
  (∀ p1 other,
     Pipeline.add_job job p = (Ok tt, p1) → Job.name other = Job.name job →
     Pipeline.add_job other p1 = (Raise (Pipeline.duplicate_job (Job.name job)), p1) ∧
     dict_get (Job.name job) (Pipeline.jobs p1) = Some job).
Proof.
  unfold Pipeline.add_job, dict_contains. split; [|split].
  - by intros orig ->.
  - intros Hnone. rewrite Hnone. eexists. split; [done|]. simpl.
    split; [by apply dict_set_absent|]. split; [apply dict_get_set_eq|].
    split; [|done]. intros k Hk. by apply dict_get_set_ne.
  - intros p1 other.
    destruct (dict_get (Job.name job) (Pipeline.jobs p)) eqn:Hget; [done|].
    intros [= <-] Hname. simpl. rewrite Hname, dict_get_set_eq. done.
Qed.

(** The two-job example is built by two calls of [add_job]; adding a job
    named [load] again is refused and changes nothing. *)
Lemma add_job_duplicate_or_insert_witness :
  Pipeline.add_job (Job.init "load" Examples.noop None None) Examples.two_jobs
    = (Raise (Pipeline.duplicate_job "load"), Examples.two_jobs) ∧
  dict_get "load" (Pipeline.jobs Examples.two_jobs) = Some Examples.job_load.
Proof.
  split; [|reflexivity].
  exact (proj1 (add_job_duplicate_or_insert Examples.two_jobs
                  (Job.init "load" Examples.noop None None))
               Examples.job_load eq_refl).
Defined.

(* ===================================================================== *)
(** ** Pipeline.get_execution_order *)
(* ===================================================================== *)

(** C1: for a pipeline whose dependency graph is acyclic and whose
    [depends_on] entries all name jobs of the pipeline,
    [get_execution_order] (given more frames than there are jobs) returns a
    list in which every job name occurs exactly once and every job occurs
    strictly after each of its direct and transitive dependencies. *)
Theorem execution_order_topological (limit : nat) (p : Pipeline.t) :
  acyclic (Pipeline.jobs p) →
  deps_present (Pipeline.jobs p) →
  length (Pipeline.jobs p) < limit →
  ∃ order,
    Pipeline.get_execution_order limit p = Ok order ∧
    NoDup order ∧
    (∀ k, k ∈ order ↔ k ∈ dict_keys (Pipeline.jobs p)) ∧
    (∀ k d i j,
       depends_trans (Pipeline.jobs p) k d →
       order !! i = Some k → order !! j = Some d → j < i).
Proof.
  intros Hacyc Hpres Hlen.
  destruct (get_execution_order_returns limit p Hacyc Hpres Hlen) as [order Hok].
  exists order. split; [done|].
  destruct (get_execution_order_Ok _ _ _ Hok) as (Hnd & Hkeys & Hdeps).
  split; [done|]. split; [done|].
  intros k d i j Hkd Hi Hj.
  destruct (Hdeps i k d Hi Hkd) as (j' & Hlt & Hj').
  by rewrite (NoDup_lookup _ _ _ _ Hnd Hj Hj').
Qed.

(** The three jobs inserted as [save], [process], [load] run as [load],
    [process], [save]. *)
Lemma execution_order_topological_witness :
  ∃ order,
    Pipeline.get_execution_order 4 Examples.three_jobs = Ok order ∧
    NoDup order ∧
    (∀ k, k ∈ order ↔ k ∈ dict_keys (Pipeline.jobs Examples.three_jobs)) ∧
    (∀ k d i j,
       depends_trans (Pipeline.jobs Examples.three_jobs) k d →
       order !! i = Some k → order !! j = Some d → j < i).
Proof.
  apply (execution_order_topological 4 Examples.three_jobs).
  - apply (ranked_acyclic (index_of ["load"; "process"; "save"])). reflexivity.
  - apply deps_presentb_correct. reflexivity.
  - simpl. lia.
Defined.

(** C3 (as amended): when every [depends_on] entry names a job of the
    pipeline, [get_execution_order] returns for an acyclic graph (given
    more frames than there are jobs), and on a graph with a cycle it
    recurses without bound: whatever the recursion limit, it is exceeded,
    and no other condition is raised. *)
Theorem execution_order_terminates_iff_acyclic (p : Pipeline.t) :
  deps_present (Pipeline.jobs p) →
  (acyclic (Pipeline.jobs p) →
     ∀ limit, length (Pipeline.jobs p) < limit →
       ∃ order, Pipeline.get_execution_order limit p = Ok order) ∧
  (has_cycle (Pipeline.jobs p) →
     ∀ limit, Pipeline.get_execution_order limit p = Raise recursion_error).
Proof.
  intros Hpres. split.
  - intros Hacyc limit Hlen. by apply get_execution_order_returns.
  - intros [k Hcyc] limit.
    destruct (Pipeline.get_execution_order limit p) as [order|e] eqn:Hres.
    + destruct (get_execution_order_Ok_graph _ _ _ Hres) as [_ Hacyc].
      by destruct (Hacyc k).
    + destruct (get_execution_order_Raise _ _ _ Hres)
        as [->|(x & -> & Hx & k0 & Hk0 & Hk0x)]; [done|].
      pose proof (rtc_depends_present _ _ _ Hpres Hk0 Hk0x) as [? Hsome].
      congruence.
Qed.

Lemma execution_order_terminates_iff_acyclic_witness :
  (∃ order, Pipeline.get_execution_order 4 Examples.three_jobs = Ok order) ∧
  (∀ limit, Pipeline.get_execution_order limit Examples.two_cycle
            = Raise recursion_error).
Proof.
  split.
  - apply (execution_order_terminates_iff_acyclic Examples.three_jobs).
    + apply deps_presentb_correct. reflexivity.
    + apply (ranked_acyclic (index_of ["load"; "process"; "save"])). reflexivity.
    + simpl. lia.
  - apply (execution_order_terminates_iff_acyclic Examples.two_cycle).
    + apply deps_presentb_correct. reflexivity.
    + exists "a". apply tc_l with "b".
      * eexists. split; [reflexivity|]. left.
      * apply tc_once. eexists. split; [reflexivity|]. left.
Defined.

(** C3, as stated, fails on a job that names an absent job before it names
    itself: the graph has a cycle, yet the traversal terminates, with the
    [ValueError] for the absent job. *)
Lemma cycle_behind_missing_dependency_terminates :
  has_cycle (Pipeline.jobs Examples.ghost_then_self) ∧
  Pipeline.get_execution_order 2 Examples.ghost_then_self
    = Raise (Pipeline.missing_dependency "ghost").
Proof.
  split; [|reflexivity].
  exists "a". apply tc_once. eexists. split; [reflexivity|]. right. left.
Qed.

Lemma get_execution_order_jobs limit p p' :
  Pipeline.jobs p = Pipeline.jobs p' →
  Pipeline.get_execution_order limit p = Pipeline.get_execution_order limit p'.
Proof. unfold Pipeline.get_execution_order. by intros ->. Qed.

Lemma merge_initial_jobs ic p :
  Pipeline.jobs (Pipeline.merge_initial ic p) = Pipeline.jobs p.
Proof. destruct ic as [c|]; simpl; [|done]. by case_decide. Qed.

(** A failure of the execution order ends [run] right after the merge of
    the initial context: no job, clock read or result is touched. *)
Lemma run_order_failure now limit ic p env e :
  Pipeline.get_execution_order limit p = Raise e →
  Pipeline.run now limit ic (p, env) = (Raise e, (Pipeline.merge_initial ic p, env)).
Proof.
  intros Hres. unfold Pipeline.run.
  rewrite (get_execution_order_jobs limit _ p (merge_initial_jobs ic p)).
  by rewrite Hres.
Qed.

(** C7 (as amended): when some [depends_on] entry names a job that is not
    in the pipeline and the dependency graph is acyclic,
    [get_execution_order] (given more frames than there are jobs) raises
    the missing-dependency [ValueError] for an absent name; [run] computes
    the order before its loop, so it raises the same condition and leaves
    every job, the clock and the results untouched. *)
Theorem missing_dependency_aborts_run (now : nat → Z) (limit : nat)
    (ic : option Context) (p : Pipeline.t) (env : Env) :
  acyclic (Pipeline.jobs p) →
  dep_missing (Pipeline.jobs p) →
  length (Pipeline.jobs p) < limit →
  ∃ d p',
    dict_get d (Pipeline.jobs p) = None ∧
    Pipeline.get_execution_order limit p = Raise (Pipeline.missing_dependency d) ∧
    Pipeline.run now limit ic (p, env) = (Raise (Pipeline.missing_dependency d), (p', env)) ∧
    Pipeline.jobs p' = Pipeline.jobs p.
Proof.
  intros Hacyc (k & d & Hkd & Hd) Hlen.
  destruct (Pipeline.get_execution_order limit p) as [order|e] eqn:Hres.
  - destruct (get_execution_order_Ok_graph _ _ _ Hres) as [Hpres _].
    destruct (Hpres _ _ Hkd) as [? Hsome]. congruence.
  - destruct (get_execution_order_Raise _ _ _ Hres)
      as [->|(x & -> & Hx & _)].
    + by destruct (get_execution_order_no_overflow limit p Hacyc Hlen).
    + exists x, (Pipeline.merge_initial ic p). split; [done|]. split; [done|].
      split; [by apply run_order_failure | apply merge_initial_jobs].
Qed.

Lemma missing_dependency_aborts_run_witness :
  ∃ d p',
    dict_get d (Pipeline.jobs Examples.missing_pipeline) = None ∧
    Pipeline.get_execution_order 3 Examples.missing_pipeline
      = Raise (Pipeline.missing_dependency d) ∧
    Pipeline.run Examples.clock 3 None (Examples.missing_pipeline, Examples.env0)
      = (Raise (Pipeline.missing_dependency d), (p', Examples.env0)) ∧
    Pipeline.jobs p' = Pipeline.jobs Examples.missing_pipeline.
Proof.
  apply (missing_dependency_aborts_run Examples.clock 3 None
           Examples.missing_pipeline Examples.env0).
  - apply (ranked_acyclic (index_of ["ghost"; "first"; "second"])). reflexivity.
  - exists "second", "ghost". split; [|reflexivity].
    eexists. split; [reflexivity|]. left.
  - simpl. lia.
Defined.

Lemma visit_self_then_ghost n :
  Pipeline.visit (Pipeline.jobs Examples.self_then_ghost) n "a" (∅, [])
    = (Raise recursion_error, (∅, [])).
Proof.
  induction n as [|n IH]; [done|].
  rewrite visit_S. rewrite decide_False by (simpl; apply not_elem_of_empty).
  change (dict_get "a" (Pipeline.jobs Examples.self_then_ghost))
    with (Some (Job.init "a" Examples.noop (Some ["a"; "ghost"]) None)).
  cbv iota beta.
  change (Job.depends_on (Job.init "a" Examples.noop (Some ["a"; "ghost"]) None))
    with ["a"; "ghost"].
  by rewrite for_each_cons, IH.
Qed.

(** C7, as stated, fails on a job that names itself before it names an
    absent job: the traversal recurses on the job without bound and never
    gets to the absent name. *)
Lemma missing_dependency_behind_cycle_not_reported :
  dep_missing (Pipeline.jobs Examples.self_then_ghost) ∧
  ∀ limit, Pipeline.get_execution_order limit Examples.self_then_ghost
           = Raise recursion_error.
Proof.
  split.
  - exists "a", "ghost". split; [|reflexivity].
    eexists. split; [reflexivity|]. right. left.
  - intros limit. unfold Pipeline.get_execution_order.
    change (dict_keys (Pipeline.jobs Examples.self_then_ghost)) with ["a"].
    by rewrite for_each_cons, visit_self_then_ghost.
Qed.

(* ===================================================================== *)
(** ** Pipeline.run *)
(* ===================================================================== *)

Section run_facts.
Variable now : nat → Z.
Implicit Types (p : Pipeline.t) (env : Env) (order : list string).

(** Over a list of jobs whose dependencies are all jobs, the loop raises
    only what the callable of one of the listed jobs raised, and stops
    there. *)
Lemma run_jobs_raise order p env e st' :
  (∀ x, x ∈ order → is_Some (dict_get x (Pipeline.jobs p))) →
  deps_present (Pipeline.jobs p) →
  for_each (Pipeline.run_job now) order (p, env) = (Raise e, st') →
  ∃ l1 x l2 s1 job,
    order = l1 ++ x :: l2 ∧
    for_each (Pipeline.run_job now) l1 (p, env) = (Ok tt, s1) ∧
    dict_get x (Pipeline.jobs s1.1) = Some job ∧
    (∀ d, d ∈ Job.depends_on job →
          status_of (Pipeline.jobs s1.1) d = Some SUCCESS) ∧
    outcome (call job (Pipeline.context s1.1)) = Raise e ∧
    st' = (Pipeline.mk (Pipeline.name s1.1)
             (dict_set x (failed now (ticks s1.2) e job) (Pipeline.jobs s1.1))
             (context_after (call job (Pipeline.context s1.1))),
           mkEnv (S (S (ticks s1.2))) (writes s1.2)).
Proof.
  intros Hkeys Hpres Hloop.
  apply for_each_raise in Hloop as (l1 & x & l2 & [p1 env1] & El & Hl1 & Hx).
  destruct (run_jobs_frame now _ _ _ _ Hl1) as (Hst & _ & _). simpl in Hst.
  apply run_job_step in Hx.
  assert (Hxkey : is_Some (dict_get x (Pipeline.jobs p1))).
  { apply (statics_is_Some (Pipeline.jobs p)); [done|].
    apply Hkeys. rewrite El. apply elem_of_app. right. left. }
  inversion Hx as [Hnone | job d Hjob Hd Hnone | | | job e' Hjob Hall Hout]; subst.
  - rewrite Hnone in Hxkey. by destruct Hxkey.
  - exfalso.
    assert (depends (Pipeline.jobs p) x d) as Hdep.
    { apply (statics_depends (Pipeline.jobs p1)); [done|]. by exists job. }
    apply Hpres in Hdep.
    apply (statics_is_Some _ (Pipeline.jobs p1)) in Hdep; [|done].
    rewrite Hnone in Hdep. by destruct Hdep.
  - by exists l1, x, l2, (p1, env1), job.
Qed.
End run_facts.

(** C4: when the loop of [run] gets to a job whose [execute] raises,
    [run] raises that same exception, and every job that comes after the
    failing one in the execution order is left exactly as it was before the
    run (so its status is the one it held: it is not set to Skipped, Failed
    or Running). Conversely a run that raises after the order was computed
    stopped at such a job. *)
Theorem run_failure_leaves_later_jobs (now : nat → Z) (limit : nat)
    (ic : option Context) (p p' : Pipeline.t) (env env' : Env)
    (order : list string) (r : Res Context) :
  Pipeline.get_execution_order limit p = Ok order →
  Pipeline.run now limit ic (p, env) = (r, (p', env')) →
  (∀ before failing after s1 job e,
     order = before ++ failing :: after →
     for_each (Pipeline.run_job now) before (Pipeline.merge_initial ic p, env)
       = (Ok tt, s1) →
     dict_get failing (Pipeline.jobs s1.1) = Some job →
     Pipeline.check_dependencies failing (Job.depends_on job) s1.1 = (Ok true, s1.1) →
     (Job.execute now job (Pipeline.context s1.1) (ticks s1.2)).1 = Raise e →
     r = Raise e ∧
     ∀ x, x ∈ after →
       dict_get x (Pipeline.jobs p') = dict_get x (Pipeline.jobs p) ∧
       status_of (Pipeline.jobs p') x = status_of (Pipeline.jobs p) x) ∧
  (∀ e, r = Raise e →
     ∃ before failing after job ctx,
       order = before ++ failing :: after ∧
       dict_get failing (Pipeline.jobs p) = Some job ∧
       outcome (call job ctx) = Raise e ∧
       (∀ x, x ∈ after →
          dict_get x (Pipeline.jobs p') = dict_get x (Pipeline.jobs p) ∧
          status_of (Pipeline.jobs p') x = status_of (Pipeline.jobs p) x)).
Proof.
  intros Hok Hrun. unfold Pipeline.run in Hrun.
  rewrite (get_execution_order_jobs limit _ p (merge_initial_jobs ic p)), Hok in Hrun.
  destruct (get_execution_order_Ok _ _ _ Hok) as (Hnd & Hkeys & _).
  destruct (get_execution_order_Ok_graph _ _ _ Hok) as (Hpres & _).
  assert (Hframe_after : ∀ l1 x l2 p1 env1 job1,
            order = l1 ++ x :: l2 →
            for_each (Pipeline.run_job now) l1 (Pipeline.merge_initial ic p, env)
              = (Ok tt, (p1, env1)) →
            ∀ y, y ∈ l2 →
              dict_get y (dict_set x job1 (Pipeline.jobs p1))
              = dict_get y (Pipeline.jobs p)).
  { intros l1 x l2 p1 env1 job1 El Hl1 y Hy.
    destruct (run_jobs_frame now _ _ _ _ Hl1) as (_ & _ & Hframe). simpl in Hframe.
    rewrite El in Hnd. apply NoDup_app in Hnd as (_ & Hdisj & Hnd2).
    apply NoDup_cons in Hnd2 as [Hx2 _].
    rewrite dict_get_set_ne by (intros ->; done).
    rewrite Hframe, merge_initial_jobs; [done|].
    intros Hy1. apply (Hdisj _ Hy1). by right. }
  split.
  - intros l1 x l2 [p1 env1] job e El Hl1 Hjob Hcheck Hexec. simpl in *.
    rewrite El, for_each_app, Hl1, for_each_cons in Hrun.
    unfold Pipeline.run_job in Hrun. rewrite Hjob, Hcheck in Hrun.
    destruct (Job.execute now job (Pipeline.context p1) (ticks env1))
      as [rx [[job' ctx'] tick']]. simpl in Hexec. subst rx.
    injection Hrun as <- <- <-. split; [done|]. simpl.
    intros y Hy. rewrite (Hframe_after l1 x l2 p1 env1 job' El Hl1 y Hy).
    split; [done|]. unfold status_of.
    by rewrite (Hframe_after l1 x l2 p1 env1 job' El Hl1 y Hy).
  - intros e ->.
    destruct (for_each _ _ _) as [[[]|e0] [p2 env2]] eqn:Hloop; [done|].
    injection Hrun as -> -> ->.
    apply run_jobs_raise in Hloop
      as (l1 & x & l2 & [p1 env1] & job & El & Hl1 & Hjob & _ & Hout & Hst').
    2:{ intros x Hx. rewrite merge_initial_jobs. by apply dict_get_is_Some, Hkeys. }
    2:{ by rewrite merge_initial_jobs. }
    injection Hst' as -> ->. simpl in *.
    destruct (run_jobs_frame now _ _ _ _ Hl1) as (_ & _ & Hframe). simpl in Hframe.
    assert (Hxl1 : x ∉ l1).
    { rewrite El in Hnd. apply NoDup_app in Hnd as (_ & Hdisj & _).
      intros Hx. apply (Hdisj _ Hx). left. }
    exists l1, x, l2, job, (Pipeline.context p1).
    split; [done|]. split.
    { by rewrite <- (merge_initial_jobs ic p), <- (Hframe x Hxl1). }
    split; [done|].
    intros y Hy. rewrite (Hframe_after l1 x l2 p1 env1 _ El Hl1 y Hy).
    split; [done|]. unfold status_of.
    by rewrite (Hframe_after l1 x l2 p1 env1 _ El Hl1 y Hy).
Qed.

(** In the pipeline whose first job fails, [second] and [third] come after
    it and are left as they were. *)
Lemma run_failure_leaves_later_jobs_witness :
  ∃ before failing after job ctx,
    ["first"; "second"; "third"] = before ++ failing :: after ∧
    dict_get failing (Pipeline.jobs Examples.failing_pipeline) = Some job ∧
    outcome (call job ctx) = Raise (mkExc OtherException "boom") ∧
    (∀ x, x ∈ after →
       dict_get x (Pipeline.jobs
          (Pipeline.run Examples.clock 4 None
             (Examples.failing_pipeline, Examples.env0)).2.1)
         = dict_get x (Pipeline.jobs Examples.failing_pipeline) ∧
       status_of (Pipeline.jobs
          (Pipeline.run Examples.clock 4 None
             (Examples.failing_pipeline, Examples.env0)).2.1) x
         = status_of (Pipeline.jobs Examples.failing_pipeline) x).
Proof.
  exact (proj2
           (run_failure_leaves_later_jobs Examples.clock 4 None
              Examples.failing_pipeline
              (Pipeline.run Examples.clock 4 None
                 (Examples.failing_pipeline, Examples.env0)).2.1
              Examples.env0
              (Pipeline.run Examples.clock 4 None
                 (Examples.failing_pipeline, Examples.env0)).2.2
              ["first"; "second"; "third"]
              (Raise (mkExc OtherException "boom"))
              eq_refl eq_refl)
           (mkExc OtherException "boom") eq_refl).
Defined.

Section gate_facts.
Variable now : nat → Z.
Variables (p : Pipeline.t) (env : Env) (order : list string).
Hypothesis Hdeps : ∀ i x d, order !! i = Some x → depends (Pipeline.jobs p) x d →
                     ∃ j, j < i ∧ order !! j = Some d.

(** When the order puts every job after its dependencies, the jobs the
    loop has gone through are all Success: none was skipped. *)
Lemma run_jobs_all_success l1 l2 s1 :
  order = l1 ++ l2 →
  for_each (Pipeline.run_job now) l1 (p, env) = (Ok tt, s1) →
  statics (Pipeline.jobs s1.1) = statics (Pipeline.jobs p) ∧
  ∀ x, x ∈ l1 → status_of (Pipeline.jobs s1.1) x = Some SUCCESS.
Proof.
  intros El.
  apply (for_each_ok_inv (Pipeline.run_job now)
           (λ done s, statics (Pipeline.jobs s.1) = statics (Pipeline.jobs p) ∧
                      ∀ x, x ∈ done → status_of (Pipeline.jobs s.1) x = Some SUCCESS)).
  { split; [done|]. intros x Hx. inversion Hx. }
  intros a x b [pa enva] s2 El1 [Hst Hdone] Hstep. simpl in Hst, Hdone.
  apply run_job_step in Hstep.
  split; [by rewrite (job_step_statics _ _ _ _ _ _ Hstep)|].
  inversion Hstep as [ | | job d dep_job Hjob Hd Hdj Hne Hr Hs
                     | job v Hjob Hall Hout Hr Hs | ]; subst s2; clear Hstep.
  - exfalso.
    assert (depends (Pipeline.jobs p) x d) as Hdep.
    { apply (statics_depends (Pipeline.jobs pa)); [done|]. by exists job. }
    assert (order !! length a = Some x) as Hx.
    { rewrite El, El1, <- !app_assoc. simpl. by rewrite list_lookup_middle. }
    destruct (Hdeps _ _ _ Hx Hdep) as (j & Hj & Hjd).
    rewrite El, El1, <- !app_assoc, lookup_app_l in Hjd by done.
    apply list_elem_of_lookup_2, Hdone in Hjd.
    unfold status_of in Hjd. rewrite Hdj in Hjd. simpl in Hjd. congruence.
  - simpl. intros y Hy. unfold status_of.
    destruct (decide (y = x)) as [->|Hyx].
    + by rewrite dict_get_set_eq.
    + rewrite dict_get_set_ne by done.
      apply elem_of_app in Hy as [Hy|Hy]; [by apply Hdone|].
      by apply list_elem_of_singleton in Hy.
Qed.
End gate_facts.

(** C2: in a run of a pipeline whose jobs are all Pending and whose
    dependency graph is acyclic with every dependency present, no job ends
    Skipped. Either the run completes and every job is Success, or the
    callable of one job raises: the jobs before it in the order are
    Success, it is Failed (Running when the exception does not derive from
    [Exception]), the run raises that exception, and the jobs after it in
    the order, among them all the jobs that depend on it, are still
    Pending. *)
Theorem run_never_skips (now : nat → Z) (limit : nat) (ic : option Context)
    (p p' : Pipeline.t) (env env' : Env) (r : Res Context) :
  all_pending (Pipeline.jobs p) →
  acyclic (Pipeline.jobs p) →
  deps_present (Pipeline.jobs p) →
  length (Pipeline.jobs p) < limit →
  Pipeline.run now limit ic (p, env) = (r, (p', env')) →
  ∃ order,
    Pipeline.get_execution_order limit p = Ok order ∧
    (∀ k, status_of (Pipeline.jobs p') k ≠ Some SKIPPED) ∧
    match r with
    | Ok _ => ∀ k, k ∈ order → status_of (Pipeline.jobs p') k = Some SUCCESS
    | Raise e =>
        ∃ before failing after job ctx,
          order = before ++ failing :: after ∧
          dict_get failing (Pipeline.jobs p) = Some job ∧
          outcome (call job ctx) = Raise e ∧
          (∀ k, k ∈ before → status_of (Pipeline.jobs p') k = Some SUCCESS) ∧
          status_of (Pipeline.jobs p') failing
            = Some (if isinstance_Exception e then FAILED else RUNNING) ∧
          (∀ k, k ∈ after → status_of (Pipeline.jobs p') k = Some PENDING) ∧
          (∀ k, depends_trans (Pipeline.jobs p) k failing →
                status_of (Pipeline.jobs p') k = Some PENDING)
    end.
Proof.
  intros Hpend Hacyc Hpres Hlen Hrun.
  destruct (get_execution_order_returns limit p Hacyc Hpres Hlen) as [order Hok].
  exists order. split; [done|].
  destruct (get_execution_order_Ok _ _ _ Hok) as (Hnd & Hkeys & Hdeps).
  unfold Pipeline.run in Hrun.
  rewrite (get_execution_order_jobs limit _ p (merge_initial_jobs ic p)), Hok in Hrun.
  set (p0 := Pipeline.merge_initial ic p) in *.
  assert (Hjobs0 : Pipeline.jobs p0 = Pipeline.jobs p) by apply merge_initial_jobs.
  assert (Hdeps0 : ∀ i x d, order !! i = Some x → depends (Pipeline.jobs p0) x d →
                     ∃ j, j < i ∧ order !! j = Some d).
  { intros i x d Hi Hd. rewrite Hjobs0 in Hd. apply (Hdeps i x d Hi). by apply tc_once. }
  destruct (for_each _ _ _) as [[[]|e] [p2 env2]] eqn:Hloop.
  - injection Hrun as <- <- <-.
    destruct (run_jobs_all_success now p0 env order Hdeps0 order [] (p2, env2))
      as [Hst Hall]; [by rewrite app_nil_r | done |]. simpl in Hst, Hall.
    split; [|done]. intros k Hk.
    destruct (decide (k ∈ order)) as [Hin|Hnin].
    + rewrite (Hall _ Hin) in Hk. congruence.
    + assert (dict_get k (Pipeline.jobs p2) = None) as Hnone.
      { apply eq_None_not_Some. intros Hsome. apply Hnin, Hkeys, dict_get_is_Some.
        rewrite <- Hjobs0. by apply (statics_is_Some (Pipeline.jobs p2)). }
      unfold status_of in Hk. by rewrite Hnone in Hk.
  - injection Hrun as <- <- <-.
    apply run_jobs_raise in Hloop
      as (l1 & x & l2 & [p1 env1] & job & El & Hl1 & Hjob & _ & Hout & Hst').
    2:{ intros x Hx. rewrite Hjobs0. by apply dict_get_is_Some, Hkeys. }
    2:{ by rewrite Hjobs0. }
    injection Hst' as -> ->. simpl in *.
    destruct (run_jobs_all_success now p0 env order Hdeps0 l1 (x :: l2) (p1, env1))
      as [Hst Hall]; [done | done |]. simpl in Hst, Hall.
    destruct (run_jobs_frame now _ _ _ _ Hl1) as (_ & _ & Hframe). simpl in Hframe.
    pose proof Hnd as Hnd'. rewrite El in Hnd'.
    apply NoDup_app in Hnd' as (_ & Hdisj & Hnd2).
    apply NoDup_cons in Hnd2 as [Hx2 _].
    assert (Hxl1 : x ∉ l1) by (intros Hx; apply (Hdisj _ Hx); left).
    assert (Hjobp : dict_get x (Pipeline.jobs p) = Some job).
    { by rewrite <- Hjobs0, <- (Hframe x Hxl1). }
    assert (Hafter : ∀ k, k ∈ l2 →
              status_of (dict_set x (failed now (ticks env1) e job) (Pipeline.jobs p1)) k
              = Some PENDING).
    { intros k Hk. unfold status_of.
      rewrite dict_get_set_ne by (intros ->; done).
      rewrite Hframe, Hjobs0 by (intros Hk1; apply (Hdisj _ Hk1); by right).
      assert (is_Some (dict_get k (Pipeline.jobs p))) as [jk Hjk].
      { apply dict_get_is_Some, Hkeys. rewrite El. apply elem_of_app. right. by right. }
      rewrite Hjk. simpl. f_equal. by eapply Hpend. }
    assert (Hbefore : ∀ k, k ∈ l1 →
              status_of (dict_set x (failed now (ticks env1) e job) (Pipeline.jobs p1)) k
              = Some SUCCESS).
    { intros k Hk. unfold status_of.
      rewrite dict_get_set_ne by (intros ->; done). by apply Hall. }
    assert (Hfail : status_of (dict_set x (failed now (ticks env1) e job) (Pipeline.jobs p1)) x
              = Some (if isinstance_Exception e then FAILED else RUNNING)).
    { unfold status_of. rewrite dict_get_set_eq. unfold failed.
      by destruct (isinstance_Exception e). }
    split.
    + intros k Hk.
      destruct (decide (k ∈ order)) as [Hin|Hnin].
      * rewrite El in Hin. apply elem_of_app in Hin as [Hin|Hin].
        { rewrite (Hbefore _ Hin) in Hk. congruence. }
        apply elem_of_cons in Hin as [->|Hin].
        { rewrite Hfail in Hk. by destruct (isinstance_Exception e). }
        rewrite (Hafter _ Hin) in Hk. congruence.
      * assert (k ≠ x) as Hkx.
        { intros ->. apply Hnin. rewrite El. apply elem_of_app. right. left. }
        unfold status_of in Hk. rewrite dict_get_set_ne in Hk by done.
        assert (dict_get k (Pipeline.jobs p1) = None) as Hnone.
        { apply eq_None_not_Some. intros Hsome. apply Hnin, Hkeys, dict_get_is_Some.
          rewrite <- Hjobs0. by apply (statics_is_Some (Pipeline.jobs p1)). }
        by rewrite Hnone in Hk.
    + exists l1, x, l2, job, (Pipeline.context p1).
      repeat (split; [done|]).
      intros k Hk. apply Hafter.
      assert (k ∈ order) as Hin.
      { by eapply Hkeys, dict_get_is_Some, depends_trans_key. }
      apply list_elem_of_lookup in Hin as [i Hi].
      destruct (Hdeps i k x Hi Hk) as (j & Hj & Hjx).
      assert (order !! length l1 = Some x) as Hx.
      { rewrite El. by rewrite list_lookup_middle. }
      pose proof (NoDup_lookup _ _ _ _ Hnd Hjx Hx) as ->.
      rewrite El in Hi. rewrite lookup_app_r in Hi by lia.
      destruct (i - length l1) as [|m] eqn:Hm; [lia|]. simpl in Hi.
      by eapply list_elem_of_lookup_2.
Qed.

(** The two-job pipeline runs to completion with both jobs Success; the
    hypotheses hold of it. *)
Lemma run_never_skips_witness :
  ∃ order,
    Pipeline.get_execution_order 3 Examples.two_jobs = Ok order ∧
    (∀ k, status_of (Pipeline.jobs
            (Pipeline.run Examples.clock 3 None (Examples.two_jobs, Examples.env0)).2.1) k
          ≠ Some SKIPPED) ∧
    ∀ k, k ∈ order →
      status_of (Pipeline.jobs
        (Pipeline.run Examples.clock 3 None (Examples.two_jobs, Examples.env0)).2.1) k
      = Some SUCCESS.
Proof.
  destruct (run_never_skips Examples.clock 3 None Examples.two_jobs
              (Pipeline.run Examples.clock 3 None (Examples.two_jobs, Examples.env0)).2.1
              Examples.env0
              (Pipeline.run Examples.clock 3 None (Examples.two_jobs, Examples.env0)).2.2
              (Pipeline.run Examples.clock 3 None (Examples.two_jobs, Examples.env0)).1)
    as (order & Hok & Hskip & Hall).
  - apply all_pendingb_correct. reflexivity.
  - apply (ranked_acyclic (index_of ["load"; "double"])). reflexivity.
  - apply deps_presentb_correct. reflexivity.
  - simpl. lia.
  - reflexivity.
  - exists order. split; [exact Hok|]. split; [exact Hskip|].
    destruct ((Pipeline.run Examples.clock 3 None (Examples.two_jobs, Examples.env0)).1)
      eqn:Hr; [exact Hall|]. discriminate Hr.
Defined.

(* ===================================================================== *)
(** ** The results written to the context *)
(* ===================================================================== *)

Lemma string_length_append (s t : string) :
  String.length (s ++ t)%string = String.length s + String.length t.
Proof. induction s as [|a s IH]; simpl; [done | by rewrite IH]. Qed.

Lemma string_append_inj_r (t s s' : string) :
  (s ++ t)%string = (s' ++ t)%string → s = s'.
Proof.
  revert s'. induction s as [|a s IH]; intros [|a' s'] E.
  - done.
  - apply (f_equal String.length) in E.
    rewrite !string_length_append in E. simpl in E. lia.
  - apply (f_equal String.length) in E.
    rewrite !string_length_append in E. simpl in E. lia.
  - change (String a (s ++ t)%string = String a' (s' ++ t)%string) in E.
    injection E as -> E. f_equal. by apply IH.
Qed.

Lemma result_key_inj : Inj (=) (=) Pipeline.result_key.
Proof.
  intros k k' E. unfold Pipeline.result_key in E.
  injection E as E.
  change ((k ++ "_result")%string = (k' ++ "_result")%string) in E.
  by apply string_append_inj_r in E.
Qed.

Lemma replay_notin ws ctx key :
  key ∉ ws.*1 → replay ws ctx !! key = ctx !! key.
Proof.
  revert ctx. induction ws as [|[k v] ws IH]; intros ctx Hk; [done|].
  apply not_elem_of_cons in Hk as [Hne Hk]. simpl in Hne.
  unfold replay. simpl. fold (replay ws (<[k:=v]> ctx)).
  rewrite IH by done. by rewrite lookup_insert_ne.
Qed.

Lemma replay_lookup ws ctx key v :
  NoDup ws.*1 → (key, v) ∈ ws → replay ws ctx !! key = Some v.
Proof.
  revert ctx. induction ws as [|[k0 v0] ws IH]; intros ctx Hnd Hin.
  { inversion Hin. }
  apply NoDup_cons in Hnd as [Hk0 Hnd].
  unfold replay. simpl. fold (replay ws (<[k0:=v0]> ctx)).
  apply elem_of_cons in Hin as [[= -> ->]|Hin].
  - rewrite replay_notin by done. apply lookup_insert_eq.
  - by apply IH.
Qed.

Section writes_facts.
Variable now : nat → Z.

(** The history grows by one assignment per job executed successfully, in
    the order of the loop. *)
Lemma run_jobs_writes l :
  NoDup l →
  ∀ p env r p' env',
    for_each (Pipeline.run_job now) l (p, env) = (r, (p', env')) →
    ∃ W, writes env' = writes env ++ W ∧
      sublist W.*1 (Pipeline.result_key <$> l) ∧
      (∀ key v, (key, v) ∈ W →
         ∃ k job', k ∈ l ∧ key = Pipeline.result_key k ∧
           dict_get k (Pipeline.jobs p') = Some job' ∧
           Job.status job' = SUCCESS ∧ Job.result job' = v) ∧
      (∀ k job', dict_get k (Pipeline.jobs p') = Some job' →
         Job.status job' = SUCCESS →
         (r = Ok tt ∧ k ∈ l) ∨ status_of (Pipeline.jobs p) k ≠ Some SUCCESS →
         (Pipeline.result_key k, Job.result job') ∈ W).
Proof.
  induction l as [|k l IH]; intros Hnd p env r p' env'.
  { intros [= <- <- <-]. exists []. split; [by rewrite app_nil_r|].
    split; [constructor|]. split; [intros key v Hin; inversion Hin|].
    intros k job' Hjob Hs [[_ Hin]|Hne]; [inversion Hin|].
    exfalso. apply Hne. unfold status_of. by rewrite Hjob, <- Hs. }
  apply NoDup_cons in Hnd as [Hkl Hnd].
  rewrite for_each_cons.
  destruct (Pipeline.run_job now k (p, env)) as [rk [p1 env1]] eqn:Hk.
  apply run_job_step in Hk.
  assert (Hstuck : ∀ e, rk = Raise e →
            (∀ k' job', dict_get k' (Pipeline.jobs p1) = Some job' →
               Job.status job' = SUCCESS →
               status_of (Pipeline.jobs p) k' = Some SUCCESS) →
            env1 = mkEnv (ticks env1) (writes env) →
            (Raise e, (p1, env1)) = (r, (p', env')) →
            ∃ W, writes env' = writes env ++ W ∧
              sublist W.*1 (Pipeline.result_key <$> k :: l) ∧
              (∀ key v, (key, v) ∈ W →
                 ∃ k0 job', k0 ∈ k :: l ∧ key = Pipeline.result_key k0 ∧
                   dict_get k0 (Pipeline.jobs p') = Some job' ∧
                   Job.status job' = SUCCESS ∧ Job.result job' = v) ∧
              (∀ k0 job', dict_get k0 (Pipeline.jobs p') = Some job' →
                 Job.status job' = SUCCESS →
                 (r = Ok tt ∧ k0 ∈ k :: l) ∨
                 status_of (Pipeline.jobs p) k0 ≠ Some SUCCESS →
                 (Pipeline.result_key k0, Job.result job') ∈ W)).
  { intros e -> Hkeep Henv [= <- <- <-]. exists [].
    split; [by rewrite Henv, app_nil_r|].
    split; [apply sublist_nil_l|]. split; [intros key v Hin; inversion Hin|].
    intros k0 job' Hjob Hs [[[=] _]|Hne]. exfalso. apply Hne. by eapply Hkeep. }
  destruct (job_step_inv _ _ _ _ _ _ Hk) as
    [(Hnone & -> & [= -> ->])
    |[(job & d & Hjob & Hd & Hnone & -> & [= -> ->])
    |[(job & d & dep_job & Hjob & Hd & Hdj & Hne & -> & [= -> ->])
    |[(job & v & Hjob & Hall & Hout & -> & [= -> ->])
    |(job & e & Hjob & Hall & Hout & -> & [= -> ->])]]]]; clear Hk.
  - apply (Hstuck _ eq_refl); [|by destruct env].
    intros k' job' Hj' Hs'. unfold status_of. by rewrite Hj', <- Hs'.
  - apply (Hstuck _ eq_refl); [|by destruct env].
    intros k' job' Hj' Hs'. unfold status_of. by rewrite Hj', <- Hs'.
  - clear Hstuck. intros Hloop.
    destruct (IH Hnd _ _ _ _ _ Hloop) as (W & HW & Hsub & Hin & Hall).
    destruct (run_jobs_frame now _ _ _ _ Hloop) as (_ & _ & Hframe).
    simpl in Hframe.
    exists W. split; [done|]. split; [by apply sublist_cons|]. split.
    + intros key v Hkv. destruct (Hin _ _ Hkv) as (k0 & job' & Hk0 & Hrest).
      exists k0, job'. split; [by right | done].
    + intros k0 job' Hj0 Hs0 Hor.
      destruct (decide (k0 = k)) as [->|Hk0].
      * exfalso. rewrite (Hframe _ Hkl) in Hj0.
        rewrite (dict_get_update_job_eq _ _ _ _ Hjob) in Hj0.
        injection Hj0 as <-. simpl in Hs0. congruence.
      * apply Hall; [done | done |].
        destruct Hor as [[-> Hk0l]|Hne0].
        -- left. split; [done|]. by apply elem_of_cons in Hk0l as [?|?].
        -- right. unfold status_of.
           rewrite dict_get_update_job_ne by done. exact Hne0.
  - clear Hstuck. intros Hloop.
    destruct (IH Hnd _ _ _ _ _ Hloop) as (W & HW & Hsub & Hin & Hall').
    destruct (run_jobs_frame now _ _ _ _ Hloop) as (_ & _ & Hframe).
    simpl in Hframe, HW.
    assert (Hkfinal : dict_get k (Pipeline.jobs p')
                      = Some (succeeded now (ticks env) v job)).
    { rewrite (Hframe _ Hkl). apply dict_get_set_eq. }
    exists ((Pipeline.result_key k, v) :: W).
    split; [by rewrite HW, <- app_assoc|].
    split; [by apply sublist_skip|]. split.
    + intros key v' Hkv. apply elem_of_cons in Hkv as [[= -> ->]|Hkv].
      * exists k, (succeeded now (ticks env) v job). split; [left|]. done.
      * destruct (Hin _ _ Hkv) as (k0 & job' & Hk0 & Hrest).
        exists k0, job'. split; [by right | done].
    + intros k0 job' Hj0 Hs0 Hor.
      destruct (decide (k0 = k)) as [->|Hk0].
      * rewrite Hkfinal in Hj0. injection Hj0 as <-. left.
      * right. apply Hall'; [done | done |].
        destruct Hor as [[-> Hk0l]|Hne0].
        -- left. split; [done|]. by apply elem_of_cons in Hk0l as [?|?].
        -- right. unfold status_of. simpl.
           rewrite dict_get_set_ne by done. exact Hne0.
  - apply (Hstuck _ eq_refl); [|done].
    intros k' job' Hj' Hs'. simpl in Hj'.
    destruct (decide (k' = k)) as [->|Hk'].
    + rewrite dict_get_set_eq in Hj'. injection Hj' as <-.
      unfold failed in Hs'. by destruct (isinstance_Exception e).
    + rewrite dict_get_set_ne in Hj' by done.
      unfold status_of. by rewrite Hj', <- Hs'.
Qed.

(** When no callable touches the context, the context after the loop is
    the context before it with the history replayed on it. *)
Lemma run_jobs_context l :
  ∀ p env r p' env',
    callables_leave_context (Pipeline.jobs p) →
    for_each (Pipeline.run_job now) l (p, env) = (r, (p', env')) →
    ∃ W, writes env' = writes env ++ W ∧
         Pipeline.context p' = replay W (Pipeline.context p).
Proof.
  induction l as [|k l IH]; intros p env r p' env' Hpure.
  { intros [= <- <- <-]. exists []. by rewrite app_nil_r. }
  rewrite for_each_cons.
  destruct (Pipeline.run_job now k (p, env)) as [rk [p1 env1]] eqn:Hk.
  apply run_job_step in Hk.
  assert (Hpure1 : callables_leave_context (Pipeline.jobs p1)).
  { intros k' job' Hj'. pose proof (job_step_statics _ _ _ _ _ _ Hk) as Hst.
    simpl in Hst.
    destruct (statics_depends_on _ _ _ _ Hst Hj') as (job0 & Hj0 & Hs0).
    unfold static in Hs0. injection Hs0 as _ Hf _ _. rewrite <- Hf.
    by eapply Hpure. }
  destruct (job_step_inv _ _ _ _ _ _ Hk) as
    [(Hnone & -> & [= -> ->])
    |[(job & d & Hjob & Hd & Hnone & -> & [= -> ->])
    |[(job & d & dep_job & Hjob & Hd & Hdj & Hne & -> & [= -> ->])
    |[(job & v & Hjob & Hall & Hout & -> & [= -> ->])
    |(job & e & Hjob & Hall & Hout & -> & [= -> ->])]]]]; clear Hk.
  - intros [= <- <- <-]. exists []. by rewrite app_nil_r.
  - intros [= <- <- <-]. exists []. by rewrite app_nil_r.
  - intros Hloop. destruct (IH _ _ _ _ _ Hpure1 Hloop) as (W & HW & Hctx).
    exists W. split; [done|]. rewrite Hctx.
    unfold Pipeline.update_job. by destruct (dict_get k (Pipeline.jobs p)).
  - intros Hloop. destruct (IH _ _ _ _ _ Hpure1 Hloop) as (W & HW & Hctx).
    simpl in HW, Hctx.
    exists ((Pipeline.result_key k, v) :: W).
    split; [by rewrite HW, <- app_assoc|]. rewrite Hctx.
    unfold call. by rewrite (Hpure _ _ Hjob).
  - intros [= <- <- <-]. exists [].
    split; [by rewrite app_nil_r|]. simpl. unfold call.
    by rewrite (Hpure _ _ Hjob).
Qed.
End writes_facts.

(** C6: during a run, the result of every job that executes successfully
    is assigned to the context under the key [job_<name>_result], exactly
    once: the assignments made by the run have pairwise distinct keys, each
    of them stores the result of a job that is Success, and every job that
    the run brought to Success has its assignment; when the callables leave
    the context alone, the context after the run holds each of these
    results under its key. In the two-job example the run completes, the
    context holds 2 under [job_double_result], and the status summary
    reports two jobs, both Success. *)
Theorem results_written_once (now : nat → Z) (limit : nat) (ic : option Context)
    (p p' : Pipeline.t) (env env' : Env) (r : Res Context) :
  Pipeline.run now limit ic (p, env) = (r, (p', env')) →
  (∃ W,
     writes env' = writes env ++ W ∧
     NoDup W.*1 ∧
     (∀ key v, (key, v) ∈ W →
        ∃ k job', key = Pipeline.result_key k ∧
          dict_get k (Pipeline.jobs p') = Some job' ∧
          Job.status job' = SUCCESS ∧ Job.result job' = v) ∧
     (∀ k job', dict_get k (Pipeline.jobs p') = Some job' →
        Job.status job' = SUCCESS →
        (∃ ctx, r = Ok ctx) ∨ status_of (Pipeline.jobs p) k ≠ Some SUCCESS →
        (Pipeline.result_key k, Job.result job') ∈ W) ∧
     (callables_leave_context (Pipeline.jobs p) →
        Pipeline.context p' = replay W (Pipeline.context (Pipeline.merge_initial ic p)) ∧
        ∀ key v, (key, v) ∈ W → Pipeline.context p' !! key = Some v)) ∧
  (∃ ctx p2 env2,
     Pipeline.run now 3 None (Examples.two_jobs, Examples.env0) = (Ok ctx, (p2, env2)) ∧
     ctx !! "job_load_result" = Some (VDict [("x", VInt 1)]) ∧
     ctx !! "job_double_result" = Some (VInt 2) ∧
     writes env2 = [("job_load_result", VDict [("x", VInt 1)]);
                    ("job_double_result", VInt 2)] ∧
     sm_total_jobs (Pipeline.get_status_summary p2) = 2 ∧
     map (λ e : string * JobSummary, (e.1, js_status e.2))
         (sm_jobs (Pipeline.get_status_summary p2))
       = [("load", "success"); ("double", "success")] ∧
     dict_get "success" (sm_status_counts (Pipeline.get_status_summary p2)) = Some 2).
Proof.
  intros Hrun. split.
  2:{ eexists _, _, _. split; [reflexivity|]. by repeat split. }
  unfold Pipeline.run in Hrun.
  set (p0 := Pipeline.merge_initial ic p) in *.
  assert (Hjobs0 : Pipeline.jobs p0 = Pipeline.jobs p) by apply merge_initial_jobs.
  destruct (Pipeline.get_execution_order limit p0) as [order|e] eqn:Hord.
  - destruct (get_execution_order_Ok _ _ _ Hord) as (Hnd & Hkeys & _).
    destruct (for_each _ _ _) as [rl [p2 env2]] eqn:Hloop.
    destruct (run_jobs_writes now order Hnd _ _ _ _ _ Hloop)
      as (W & HW & Hsub & Hin & Hall).
    assert (HndW : NoDup W.*1).
    { eapply sublist_NoDup; [|exact Hsub].
      apply NoDup_fmap_2; [apply result_key_inj | done]. }
    assert (p' = p2 ∧ env' = env2 ∧ (∀ ctx, r = Ok ctx → rl = Ok tt)) as (-> & -> & Hr).
    { destruct rl as [[]|e]; injection Hrun as <- <- <-; by repeat split. }
    exists W. split; [done|]. split; [done|]. split.
    { intros key v Hkv. destruct (Hin _ _ Hkv) as (k & job' & _ & Hrest).
      by exists k, job'. }
    split.
    { intros k job' Hj Hs Hor. apply Hall; [done | done |].
      destruct Hor as [[ctx Hctx]|Hne].
      - left. split; [by eapply Hr|].
        apply Hkeys, dict_get_is_Some.
        destruct (run_jobs_frame now _ _ _ _ Hloop) as (Hst & _ & _).
        apply (statics_is_Some (Pipeline.jobs p2)); [done|]. by rewrite Hj.
      - right. by rewrite Hjobs0. }
    intros Hpure.
    destruct (run_jobs_context now order p0 env rl p2 env2) as (W' & HW' & Hctx);
      [by rewrite Hjobs0 | done |].
    rewrite HW in HW'. apply app_inv_head in HW' as <-.
    split; [done|]. intros key v Hkv. rewrite Hctx. by apply replay_lookup.
  - injection Hrun as <- <- <-. exists []. split; [by rewrite app_nil_r|].
    split; [constructor|]. split; [intros key v Hkv; inversion Hkv|].
    split.
    { intros k job' Hj Hs [[ctx [=]]|Hne]. exfalso. apply Hne.
      unfold status_of. by rewrite <- Hjobs0, Hj, <- Hs. }
    intros _. split; [done|]. intros key v Hkv. inversion Hkv.
Qed.

(** The run of the two-job example makes two assignments, under distinct
    keys. *)
Lemma results_written_once_witness :
  ∃ W,
    writes (Pipeline.run Examples.clock 3 None (Examples.two_jobs, Examples.env0)).2.2
      = writes Examples.env0 ++ W ∧
    NoDup W.*1 ∧ length W = 2.
Proof.
  destruct (results_written_once Examples.clock 3 None Examples.two_jobs
              (Pipeline.run Examples.clock 3 None (Examples.two_jobs, Examples.env0)).2.1
              Examples.env0
              (Pipeline.run Examples.clock 3 None (Examples.two_jobs, Examples.env0)).2.2
              (Pipeline.run Examples.clock 3 None (Examples.two_jobs, Examples.env0)).1
              eq_refl)
    as [(W & HW & Hnd & _) _].
  exists W. split; [exact HW|]. split; [exact Hnd|].
  apply (f_equal length) in HW. exact (eq_sym HW).
Defined.

(* ===================================================================== *)
(** ** Pipeline.get_status_summary *)
(* ===================================================================== *)

Lemma fold_count_status (l : list Job.t) :
  ∀ d : list (JobStatus * nat),
    (∀ st, is_Some (dict_get st d)) →
    ∀ st, dict_get st (fold_left Pipeline.count_status l d)
          = Some (default 0 (dict_get st d)
                  + length (filter (λ job, Job.status job = st) l)).
Proof.
  induction l as [|job l IH]; intros d Hd st; simpl.
  { destruct (Hd st) as [n ->]. simpl. f_equal. lia. }
  unfold Pipeline.count_status at 2.
  destruct (Hd (Job.status job)) as [n Hn]. rewrite Hn.
  rewrite IH.
  2:{ intros st'. destruct (decide (Job.status job = st')) as [<-|Hne].
      - rewrite dict_get_set_eq. eauto.
      - rewrite dict_get_set_ne by done. apply Hd. }
  f_equal. rewrite filter_cons.
  destruct (decide (Job.status job = st)) as [<-|Hne].
  - rewrite dict_get_set_eq, Hn. simpl. lia.
  - by rewrite dict_get_set_ne by done.
Qed.

Lemma fold_count_status_keys (l : list Job.t) :
  ∀ d : list (JobStatus * nat),
    dict_keys (fold_left Pipeline.count_status l d) = dict_keys d.
Proof.
  induction l as [|job l IH]; intros d; simpl; [done|].
  rewrite IH. unfold Pipeline.count_status.
  destruct (dict_get (Job.status job) d) as [n|] eqn:Hn; [|done].
  apply dict_keys_set_present. by rewrite Hn.
Qed.

Lemma JobStatus_value_inj : Inj (=) (=) JobStatus_value.
Proof. intros [] []; simpl; by intros [=]. Qed.

Lemma dict_get_status_value (st : JobStatus) (d : list (JobStatus * nat)) :
  dict_get (JobStatus_value st)
           (map (λ '(s, n), (JobStatus_value s, n)) d) = dict_get st d.
Proof.
  induction d as [|[s n] d IH]; simpl; [done|].
  destruct (decide (st = s)) as [->|Hne].
  - by rewrite decide_True.
  - rewrite decide_False; [done|]. intros E. by apply JobStatus_value_inj in E.
Qed.

Lemma count_with_status_total (l : list Job.t) :
  sum_list ((λ st, length (filter (λ job, Job.status job = st) l))
              <$> JobStatus_members) = length l.
Proof.
  induction l as [|job l IH]; [done|].
  simpl in *. rewrite !filter_cons.
  destruct (Job.status job); simpl; lia.
Qed.

Lemma fold_add_duration (l : list Job.t) :
  ∀ acc : float,
    fold_left Pipeline.add_duration l acc
    = fold_left PrimFloat.add
        (filter (λ d, float_truthy d) (omap Job.get_duration l)) acc.
Proof.
  induction l as [|job l IH]; intros acc; [done|].
  simpl. rewrite IH. unfold Pipeline.add_duration.
  destruct (Job.get_duration job) as [d|]; [|done].
  rewrite filter_cons. by destruct (float_truthy d).
Qed.

Lemma exact_total_us_Permutation (l l' : list Job.t) :
  l ≡ₚ l' →
  foldr (λ job acc, (duration_us job + acc)%Z) 0%Z l
  = foldr (λ job acc, (duration_us job + acc)%Z) 0%Z l'.
Proof.
  induction 1 as [|x l l' _ IH|x y l|l l' l'' _ IH1 _ IH2]; simpl; lia.
Qed.

(** C9 (as amended): the summary reports as [total_jobs] the number of
    jobs, and one count per status, which is the number of jobs with that
    status, so that the counts add up to [total_jobs]. Its [total_duration]
    is the floating-point sum, accumulated from zero in insertion order, of
    the recorded durations that are not zero (a job without a recorded
    duration adds nothing). Pipelines that hold the same jobs in another
    insertion order have the same [total_jobs], the same counts, the same
    durations to add and the same total of exact microseconds; the
    floating-point total is not promised to be the same. *)
Theorem status_summary_totals (p : Pipeline.t) :
  sm_total_jobs (Pipeline.get_status_summary p) = length (Pipeline.jobs p) ∧
  dict_keys (sm_status_counts (Pipeline.get_status_summary p))
    = JobStatus_value <$> JobStatus_members ∧
  (∀ st, dict_get (JobStatus_value st)
                  (sm_status_counts (Pipeline.get_status_summary p))
         = Some (count_with_status st (Pipeline.jobs p))) ∧
  sum_list ((λ st, count_with_status st (Pipeline.jobs p)) <$> JobStatus_members)
    = length (Pipeline.jobs p) ∧
  sm_total_duration (Pipeline.get_status_summary p)
    = fold_left PrimFloat.add
        (filter (λ d, float_truthy d) (recorded_durations (Pipeline.jobs p)))
        0%float ∧
  (∀ p2, Pipeline.jobs p2 ≡ₚ Pipeline.jobs p →
     sm_total_jobs (Pipeline.get_status_summary p2)
       = sm_total_jobs (Pipeline.get_status_summary p) ∧
     (∀ st, dict_get (JobStatus_value st)
                     (sm_status_counts (Pipeline.get_status_summary p2))
            = dict_get (JobStatus_value st)
                       (sm_status_counts (Pipeline.get_status_summary p))) ∧
     recorded_durations (Pipeline.jobs p2) ≡ₚ recorded_durations (Pipeline.jobs p) ∧
     exact_total_us (Pipeline.jobs p2) = exact_total_us (Pipeline.jobs p)).
Proof.
  assert (Hcounts : ∀ q st,
            dict_get (JobStatus_value st)
                     (sm_status_counts (Pipeline.get_status_summary q))
            = Some (count_with_status st (Pipeline.jobs q))).
  { intros q st. unfold Pipeline.get_status_summary. cbn [sm_status_counts].
    rewrite dict_get_status_value, fold_count_status.
    - unfold count_with_status. by destruct st.
    - intros []; simpl; eauto. }
  split; [done|]. split.
  { unfold Pipeline.get_status_summary. cbn [sm_status_counts].
    pose proof (fold_count_status_keys (dict_values (Pipeline.jobs p))
                  (map (λ s, (s, 0)) JobStatus_members)) as Hk.
    unfold dict_keys in *. rewrite <- list_fmap_compose.
    transitivity (JobStatus_value <$>
                    (fold_left Pipeline.count_status (dict_values (Pipeline.jobs p))
                       (map (λ s, (s, 0)) JobStatus_members)).*1).
    - rewrite <- list_fmap_compose. apply list_fmap_ext. by intros i [s n] _.
    - by rewrite Hk. }
  split; [apply Hcounts|]. split.
  { unfold count_with_status. rewrite count_with_status_total.
    unfold dict_values. by rewrite length_fmap. }
  split; [apply fold_add_duration|].
  intros p2 Hperm.
  assert (dict_values (Pipeline.jobs p2) ≡ₚ dict_values (Pipeline.jobs p)) as Hv.
  { unfold dict_values. by rewrite Hperm. }
  split; [simpl; by rewrite Hperm|]. split.
  { intros st. rewrite !Hcounts. unfold count_with_status. by rewrite Hv. }
  split.
  { unfold recorded_durations. by rewrite Hv. }
  by apply exact_total_us_Permutation.
Qed.

(** C9, as stated, fails on three jobs that took 0.1 s, 0.2 s and 0.3 s:
    added in the opposite order to another pipeline, the same jobs get a
    smaller [total_duration] (0.6 against 0.6000000000000001), and so do
    the same three jobs run in the opposite order with the same
    durations. *)
Lemma total_duration_depends_on_insertion_order :
  Pipeline.jobs Examples.cba_readded ≡ₚ Pipeline.jobs Examples.abc_after_run ∧
  PrimFloat.eqb
    (sm_total_duration (Pipeline.get_status_summary Examples.cba_readded))
    (sm_total_duration (Pipeline.get_status_summary Examples.abc_after_run))
    = false ∧
  PrimFloat.ltb
    (sm_total_duration (Pipeline.get_status_summary Examples.cba_readded))
    (sm_total_duration (Pipeline.get_status_summary Examples.abc_after_run))
    = true ∧
  recorded_durations (Pipeline.jobs Examples.cba_after_run)
    = recorded_durations (Pipeline.jobs Examples.cba_readded) ∧
  PrimFloat.eqb
    (sm_total_duration (Pipeline.get_status_summary Examples.cba_after_run))
    (sm_total_duration (Pipeline.get_status_summary Examples.abc_after_run))
    = false.
Proof.
  split.
  { change (Pipeline.jobs Examples.cba_readded)
      with (reverse (Pipeline.jobs Examples.abc_after_run)).
    apply reverse_Permutation. }
  repeat split; vm_compute; reflexivity.
Qed.

(* ===================================================================== *)
(** ** ProcessController.run_all_pipelines *)
(* ===================================================================== *)

(** [run] raises what the execution order raises, or what a callable of
    one of its jobs raised: when no callable raises anything but
    [Exception]s, neither does [run]. *)
Lemma run_raises_Exception now limit ic p env e st' :
  Forall (λ kj : string * Job.t, raises_only_Exception (Job.func kj.2))
         (Pipeline.jobs p) →
  Pipeline.run now limit ic (p, env) = (Raise e, st') →
  isinstance_Exception e = true.
Proof.
  intros Hcall Hrun. unfold Pipeline.run in Hrun.
  set (p0 := Pipeline.merge_initial ic p) in *.
  assert (Hjobs0 : Pipeline.jobs p0 = Pipeline.jobs p) by apply merge_initial_jobs.
  destruct (Pipeline.get_execution_order limit p0) as [order|e0] eqn:Hord.
  - destruct (get_execution_order_Ok _ _ _ Hord) as (_ & Hkeys & _).
    destruct (get_execution_order_Ok_graph _ _ _ Hord) as (Hpres & _).
    destruct (for_each _ _ _) as [[[]|e0] st0] eqn:Hloop; [by destruct st0|].
    injection Hrun as -> ->.
    apply run_jobs_raise in Hloop
      as (l1 & x & l2 & [p1 env1] & job & El & Hl1 & Hjob & _ & Hout & _);
      [|by intros x Hx; apply dict_get_is_Some, Hkeys | done].
    destruct (run_jobs_frame now _ _ _ _ Hl1) as (Hst & _ & _). simpl in Hst, Hjob.
    destruct (statics_depends_on _ _ _ _ Hst Hjob) as (job0 & Hjob0 & Hs0).
    rewrite Hjobs0 in Hjob0. apply dict_get_Some_elem in Hjob0.
    rewrite Forall_forall in Hcall. specialize (Hcall _ Hjob0). simpl in Hcall.
    unfold static in Hs0. injection Hs0 as _ Hf _ Hp.
    unfold call, Job.execution_params in Hout. rewrite <- Hf, <- Hp in Hout.
    by eapply Hcall.
  - injection Hrun as -> _.
    by destruct (get_execution_order_Raise _ _ _ Hord) as [->|(x & -> & _)].
Qed.

Lemma run_each_recording_cons now limit ic name p items env :
  run_each_recording now limit ic ((name, p) :: items) env =
    let '(r, (p', env1)) := Pipeline.run now limit ic (p, env) in
    let entry := match r with
                 | Ok ctx => ctx
                 | Raise e => ProcessController.error_entry e
                 end in
    let '(results, (rest', env2)) := run_each_recording now limit ic items env1 in
    ((name, entry) :: results, ((name, p') :: rest', env2)).
Proof. reflexivity. Qed.

Lemma run_all_loop_cons now limit ic name p todo done results env :
  ProcessController.run_all_loop now limit ic ((name, p) :: todo) done results env =
    match Pipeline.run now limit ic (p, env) with
    | (Ok ctx, (p', env')) =>
        ProcessController.run_all_loop now limit ic todo (done ++ [(name, p')])
          (dict_set name ctx results) env'
    | (Raise e, (p', env')) =>
        if isinstance_Exception e then
          ProcessController.run_all_loop now limit ic todo (done ++ [(name, p')])
            (dict_set name (ProcessController.error_entry e) results) env'
        else (Raise e, (done ++ (name, p') :: todo, env'))
    end.
Proof. reflexivity. Qed.

Lemma run_each_recording_keys now limit ic items :
  ∀ env, dict_keys (run_each_recording now limit ic items env).1 = dict_keys items ∧
         dict_keys (run_each_recording now limit ic items env).2.1 = dict_keys items.
Proof.
  unfold dict_keys.
  induction items as [|[name p] items IH]; intros env; [done|].
  rewrite run_each_recording_cons.
  destruct (Pipeline.run now limit ic (p, env)) as [r [p' env1]].
  specialize (IH env1).
  destruct (run_each_recording now limit ic items env1) as [res [rest' env2]].
  cbv zeta. cbn [fst snd] in *. rewrite !fmap_cons.
  destruct IH as [-> ->]. done.
Qed.

(** Under the hypothesis on the callables, the loop of
    [run_all_pipelines] is the run of every pipeline in turn. *)
Lemma run_all_loop_recording now limit ic todo :
  ∀ done results env,
    callables_raise_only_Exception todo →
    NoDup (dict_keys results ++ dict_keys todo) →
    ProcessController.run_all_loop now limit ic todo done results env
    = (Ok (results ++ (run_each_recording now limit ic todo env).1),
       (done ++ (run_each_recording now limit ic todo env).2.1,
        (run_each_recording now limit ic todo env).2.2)).
Proof.
  induction todo as [|[name p] todo IH]; intros done results env Hcall Hnd.
  { simpl. by rewrite !app_nil_r. }
  apply Forall_cons in Hcall as [Hp Hcall]. simpl in Hp.
  rewrite run_all_loop_cons, run_each_recording_cons.
  destruct (Pipeline.run now limit ic (p, env)) as [r [p' env1]] eqn:Hrun.
  assert (Hfresh : dict_get name results = None).
  { apply dict_get_None. intros Hin.
    apply NoDup_app in Hnd as (_ & Hdisj & _). apply (Hdisj _ Hin). left. }
  assert (Hnd' : ∀ entry : Context,
            NoDup (dict_keys (results ++ [(name, entry)]) ++ dict_keys todo)).
  { intros entry. unfold dict_keys in *. rewrite fmap_app, <- app_assoc. exact Hnd. }
  destruct r as [ctx|e].
  - rewrite (dict_set_absent _ _ _ Hfresh), (IH _ _ _ Hcall (Hnd' ctx)).
    destruct (run_each_recording now limit ic todo env1) as [res [rest' env2]].
    simpl. by rewrite <- !app_assoc.
  - rewrite (run_raises_Exception _ _ _ _ _ _ _ Hp Hrun).
    rewrite (dict_set_absent _ _ _ Hfresh), (IH _ _ _ Hcall (Hnd' _)).
    destruct (run_each_recording now limit ic todo env1) as [res [rest' env2]].
    simpl. by rewrite <- !app_assoc.
Qed.

(** C10 (as amended): when no callable raises an exception that escapes
    [except Exception], [run_all_pipelines] raises nothing: it runs every
    pipeline, in insertion order, records for each its final context, or
    the dictionary [{'error': str(e)}] when its run raised [e], and returns
    a mapping with one entry per pipeline. *)
Theorem run_all_pipelines_records_failures (now : nat → Z) (limit : nat)
    (ic : option Context) (c : ProcessController.t) (env : Env) :
  dict_wf (ProcessController.pipelines c) →
  callables_raise_only_Exception (ProcessController.pipelines c) →
  ∃ results c' env',
    ProcessController.run_all_pipelines now limit ic (c, env)
      = (Ok results, (c', env')) ∧
    (results, (ProcessController.pipelines c', env'))
      = run_each_recording now limit ic (ProcessController.pipelines c) env ∧
    dict_keys results = dict_keys (ProcessController.pipelines c) ∧
    dict_keys (ProcessController.pipelines c')
      = dict_keys (ProcessController.pipelines c).
Proof.
  intros Hwf Hcall. unfold ProcessController.run_all_pipelines.
  rewrite (run_all_loop_recording now limit ic _ [] [] env Hcall Hwf).
  destruct (run_each_recording_keys now limit ic (ProcessController.pipelines c) env)
    as [Hk1 Hk2].
  destruct (run_each_recording now limit ic (ProcessController.pipelines c) env)
    as [res [rest' env2]].
  simpl in *. by eexists _, _, _.
Qed.

Lemma run_all_pipelines_records_failures_witness :
  ∃ results c' env',
    ProcessController.run_all_pipelines Examples.clock 4 None
        (Examples.failing_controller, Examples.env0)
      = (Ok results, (c', env')) ∧
    (results, (ProcessController.pipelines c', env'))
      = run_each_recording Examples.clock 4 None
          (ProcessController.pipelines Examples.failing_controller) Examples.env0 ∧
    dict_keys results = ["failing"; "two"] ∧
    dict_keys (ProcessController.pipelines c') = ["failing"; "two"].
Proof.
  apply (run_all_pipelines_records_failures Examples.clock 4 None
           Examples.failing_controller Examples.env0).
  - unfold dict_wf. simpl. apply NoDup_cons. split; [|apply NoDup_singleton].
    intros Hin. by apply list_elem_of_singleton in Hin.
  - repeat constructor; simpl; intros kw ctx e; try by intros [=].
    + by intros [= <-].
    + unfold Examples.double. repeat case_match; by intros [= <-].
Defined.

(** C10, as stated, fails on a pipeline whose job is interrupted by
    [KeyboardInterrupt]: [run_all_pipelines] lets the exception through,
    and the pipeline after it is not run. *)
Lemma run_all_pipelines_propagates_interrupt :
  (ProcessController.run_all_pipelines Examples.clock 4 None
     (Examples.interrupted_controller, Examples.env0)).1
    = Raise (mkExc BaseExceptionOnly "") ∧
  dict_get "two"
    (ProcessController.pipelines
       (ProcessController.run_all_pipelines Examples.clock 4 None
          (Examples.interrupted_controller, Examples.env0)).2.1)
    = Some Examples.two_jobs.
Proof. split; reflexivity. Qed.


(* ===================================================================== *)
(** ** Further properties: the jobs mapping *)
(* ===================================================================== *)

Lemma filter_all_id {A} (P : A → Prop) `{∀ x, Decision (P x)} (l : list A) :
  (∀ x, x ∈ l → P x) → filter P l = l.
Proof.
  induction l as [|x l IH]; intros Hall; [done|].
  rewrite filter_cons_True by (apply Hall; left).
  f_equal. apply IH. intros y Hy. apply Hall. by right.
Qed.

Section odict_more.
Context {K : Type} `{EqDecision K} {V : Type}.
Implicit Types (d : list (K * V)) (k : K) (v : V).

Lemma dict_get_elem_wf k v d : dict_wf d → (k, v) ∈ d → dict_get k d = Some v.
Proof.
  unfold dict_wf, dict_keys. induction d as [|[k0 v0] d IH]; intros Hwf Hin.
  { inversion Hin. }
  csimpl in Hwf. apply NoDup_cons in Hwf as [Hk0 Hwf]. simpl.
  apply elem_of_cons in Hin as [[= -> ->]|Hin].
  - by rewrite decide_True.
  - rewrite decide_False; [by apply IH|].
    intros ->. apply Hk0. apply list_elem_of_fmap. by exists (k0, v).
Qed.

Lemma dict_get_del_ne k k' d : k ≠ k' → dict_get k' (dict_del k d) = dict_get k' d.
Proof.
  intros Hne. induction d as [|[k0 v0] d IH]; simpl; [done|].
  destruct (decide (k = k0)) as [<-|Hk]; simpl.
  - by rewrite decide_False by done.
  - by rewrite IH.
Qed.

Lemma dict_del_absent k d : dict_get k d = None → dict_del k d = d.
Proof.
  induction d as [|[k0 v0] d IH]; simpl; [done|].
  case_decide; [done|]. intros G. by rewrite IH.
Qed.

Lemma dict_keys_del k d :
  dict_wf d → dict_keys (dict_del k d) = filter (λ x, x ≠ k) (dict_keys d).
Proof.
  unfold dict_wf, dict_keys. induction d as [|[k0 v0] d IH]; intros Hwf; [done|].
  csimpl in Hwf. apply NoDup_cons in Hwf as [Hk0 Hwf]. csimpl.
  rewrite filter_cons. destruct (decide (k = k0)) as [<-|Hk].
  - rewrite decide_False by (intros G; by apply G).
    symmetry. apply filter_all_id. intros x Hx ->. done.
  - rewrite decide_True by done. csimpl. by rewrite IH.
Qed.

Lemma dict_get_del_eq k d : dict_wf d → dict_get k (dict_del k d) = None.
Proof.
  intros Hwf. apply dict_get_None. rewrite dict_keys_del by done.
  intros Hin. apply list_elem_of_filter in Hin as [Hne _]. done.
Qed.

Lemma dict_wf_check d : bool_decide (NoDup (dict_keys d)) = true → dict_wf d.
Proof. apply bool_decide_eq_true_1. Qed.

Lemma dict_wf_del k d : dict_wf d → dict_wf (dict_del k d).
Proof.
  intros Hwf. unfold dict_wf. rewrite dict_keys_del by done.
  by apply NoDup_filter.
Qed.

Lemma dict_wf_set k v d : dict_wf d → dict_wf (dict_set k v d).
Proof.
  intros Hwf. unfold dict_wf.
  destruct (dict_get k d) as [v0|] eqn:Hk.
  - rewrite dict_keys_set_present; [done | by rewrite Hk].
  - rewrite dict_set_absent by done. unfold dict_keys. rewrite fmap_app.
    apply NoDup_app. split; [done|]. split; [|apply NoDup_singleton].
    intros x Hx Hx'. apply list_elem_of_singleton in Hx' as ->.
    by apply dict_get_None in Hk.
Qed.
End odict_more.

(** X1: [remove_job] never raises; on a pipeline whose job names are
    distinct it leaves no job under the name it was given, keeps every other
    job under its name and in its place in the insertion order, and touches
    neither the pipeline's name nor its context; when no job has that name
    the pipeline is unchanged. *)
Theorem remove_job_removes_only_that_job (p : Pipeline.t) (k : string) :
  dict_wf (Pipeline.jobs p) →
  ∃ p',
    Pipeline.remove_job k p = (Ok tt, p') ∧
    dict_get k (Pipeline.jobs p') = None ∧
    (∀ k', k' ≠ k →
       dict_get k' (Pipeline.jobs p') = dict_get k' (Pipeline.jobs p)) ∧
    dict_keys (Pipeline.jobs p')
      = filter (λ x, x ≠ k) (dict_keys (Pipeline.jobs p)) ∧
    Pipeline.name p' = Pipeline.name p ∧
    Pipeline.context p' = Pipeline.context p ∧
    (dict_get k (Pipeline.jobs p) = None → p' = p).
Proof.
  intros Hwf. unfold Pipeline.remove_job, dict_contains.
  destruct (dict_get k (Pipeline.jobs p)) as [job|] eqn:Hk.
  - eexists. split; [done|]. simpl.
    split; [by apply dict_get_del_eq|].
    split; [intros k' Hne; by apply dict_get_del_ne|].
    split; [by apply dict_keys_del|]. done.
  - exists p. split; [done|]. split; [done|]. split; [done|]. split; [|done].
    symmetry. apply filter_all_id. intros x Hx ->.
    by apply dict_get_None in Hk.
Qed.

Lemma remove_job_removes_only_that_job_witness :
  ∃ p',
    Pipeline.remove_job "process" Examples.three_jobs = (Ok tt, p') ∧
    dict_get "process" (Pipeline.jobs p') = None ∧
    (∀ k', k' ≠ "process" →
       dict_get k' (Pipeline.jobs p')
       = dict_get k' (Pipeline.jobs Examples.three_jobs)) ∧
    dict_keys (Pipeline.jobs p')
      = filter (λ x, x ≠ "process") ["save"; "process"; "load"] ∧
    Pipeline.name p' = "three" ∧
    Pipeline.context p' = ∅ ∧
    (dict_get "process" (Pipeline.jobs Examples.three_jobs) = None →
     p' = Examples.three_jobs).
Proof.
  apply (remove_job_removes_only_that_job Examples.three_jobs "process").
  apply dict_wf_check. reflexivity.
Defined.

(** X2: replacing a job takes a [remove_job] and an [add_job]: on a
    pipeline whose job names are distinct, [add_job] after [remove_job] of
    the same name always succeeds, and the job it stores goes last in the
    insertion order, whatever place the removed job had. *)
Theorem add_job_after_remove_job (p : Pipeline.t) (job : Job.t) :
  dict_wf (Pipeline.jobs p) →
  ∃ p',
    Pipeline.add_job job (Pipeline.remove_job (Job.name job) p).2 = (Ok tt, p') ∧
    Pipeline.jobs p'
      = dict_del (Job.name job) (Pipeline.jobs p) ++ [(Job.name job, job)] ∧
    dict_keys (Pipeline.jobs p')
      = filter (λ x, x ≠ Job.name job) (dict_keys (Pipeline.jobs p))
        ++ [Job.name job] ∧
    dict_get (Job.name job) (Pipeline.jobs p') = Some job.
Proof.
  intros Hwf.
  assert (Hjobs : Pipeline.jobs (Pipeline.remove_job (Job.name job) p).2
                  = dict_del (Job.name job) (Pipeline.jobs p)).
  { unfold Pipeline.remove_job, dict_contains.
    destruct (dict_get (Job.name job) (Pipeline.jobs p)) eqn:Hk; [done|].
    simpl. by rewrite dict_del_absent. }
  unfold Pipeline.add_job, dict_contains. rewrite Hjobs.
  rewrite dict_get_del_eq by done. eexists. split; [done|]. simpl.
  rewrite dict_set_absent by (by apply dict_get_del_eq).
  split; [done|]. split.
  - unfold dict_keys. rewrite fmap_app. f_equal. by apply dict_keys_del.
  - rewrite <- (dict_set_absent _ job) by (by apply dict_get_del_eq).
    apply dict_get_set_eq.
Qed.

Lemma add_job_after_remove_job_witness :
  ∃ p',
    Pipeline.add_job (Job.init "save" Examples.noop None None)
      (Pipeline.remove_job "save" Examples.three_jobs).2 = (Ok tt, p') ∧
    Pipeline.jobs p'
      = dict_del "save" (Pipeline.jobs Examples.three_jobs)
        ++ [("save", Job.init "save" Examples.noop None None)] ∧
    dict_keys (Pipeline.jobs p')
      = filter (λ x, x ≠ "save") ["save"; "process"; "load"] ++ ["save"] ∧
    dict_get "save" (Pipeline.jobs p')
      = Some (Job.init "save" Examples.noop None None).
Proof.
  apply (add_job_after_remove_job Examples.three_jobs
           (Job.init "save" Examples.noop None None)).
  apply dict_wf_check. reflexivity.
Defined.

Lemma remove_job_jobs k p :
  Pipeline.jobs (Pipeline.remove_job k p).2 = dict_del k (Pipeline.jobs p).
Proof.
  unfold Pipeline.remove_job, dict_contains.
  destruct (dict_get k (Pipeline.jobs p)) eqn:Hk; [done|].
  simpl. by rewrite dict_del_absent.
Qed.

Lemma length_dict_del {K V} `{EqDecision K} (k : K) (d : list (K * V)) :
  length (dict_del k d) ≤ length d.
Proof.
  induction d as [|[k0 v0] d IH]; simpl; [done|]. case_decide; simpl; lia.
Qed.

Lemma Forall_dict_del {K V} `{EqDecision K} (P : K * V → Prop) (k : K)
    (d : list (K * V)) :
  Forall P d → Forall P (dict_del k d).
Proof.
  induction 1 as [|[k0 v0] d Hx Hd IH]; simpl; [done|].
  case_decide; [done | by constructor].
Qed.

(** With enough frames, an acyclic pipeline with an absent dependency gets
    the missing-dependency error for an absent name. *)
Lemma missing_dependency_raised limit p :
  acyclic (Pipeline.jobs p) → dep_missing (Pipeline.jobs p) →
  length (Pipeline.jobs p) < limit →
  ∃ d, dict_get d (Pipeline.jobs p) = None ∧
       Pipeline.get_execution_order limit p = Raise (Pipeline.missing_dependency d).
Proof.
  intros Hacyc (k & d & Hkd & Hd) Hlen.
  destruct (Pipeline.get_execution_order limit p) as [order|e] eqn:Hres.
  - destruct (get_execution_order_Ok_graph _ _ _ Hres) as [Hpres _].
    destruct (Hpres _ _ Hkd) as [? Hsome]. congruence.
  - destruct (get_execution_order_Raise _ _ _ Hres) as [->|(x & -> & Hx & _)].
    + by destruct (get_execution_order_no_overflow limit p Hacyc Hlen).
    + by exists x.
Qed.

(** X3: [remove_job] does not look at the dependencies of the other jobs:
    on an acyclic pipeline with distinct job names, removing a job that
    another job depends on leaves a pipeline whose [get_execution_order]
    (given more frames than there are jobs) raises the missing-dependency
    [ValueError]. *)
Theorem remove_job_breaks_dependents (limit : nat) (p : Pipeline.t) (k x : string) :
  dict_wf (Pipeline.jobs p) →
  acyclic (Pipeline.jobs p) →
  x ≠ k →
  depends (Pipeline.jobs p) x k →
  length (Pipeline.jobs p) < limit →
  ∃ d,
    dict_get d (Pipeline.jobs (Pipeline.remove_job k p).2) = None ∧
    Pipeline.get_execution_order limit (Pipeline.remove_job k p).2
      = Raise (Pipeline.missing_dependency d).
Proof.
  intros Hwf Hacyc Hxk (job & Hjob & Hk) Hlen.
  assert (Hsub : ∀ a b, depends (Pipeline.jobs (Pipeline.remove_job k p).2) a b →
                        depends (Pipeline.jobs p) a b).
  { intros a b (ja & Hja & Hb). rewrite remove_job_jobs in Hja.
    exists ja. split; [|done].
    destruct (decide (a = k)) as [->|Hak].
    - by rewrite dict_get_del_eq in Hja.
    - by rewrite dict_get_del_ne in Hja. }
  apply missing_dependency_raised.
  - assert (Htc : ∀ a b,
              depends_trans (Pipeline.jobs (Pipeline.remove_job k p).2) a b →
              depends_trans (Pipeline.jobs p) a b).
    { intros a b Hab. induction Hab as [a b Hab | a b c Hab _ IH].
      - apply tc_once. by apply Hsub.
      - eapply tc_l; [by apply Hsub | exact IH]. }
    intros a Ha. by apply (Hacyc a), Htc.
  - exists x, k. rewrite remove_job_jobs. split.
    + exists job. split; [|done]. by rewrite dict_get_del_ne.
    + by apply dict_get_del_eq.
  - rewrite remove_job_jobs. pose proof (length_dict_del k (Pipeline.jobs p)). lia.
Qed.

Lemma remove_job_breaks_dependents_witness :
  ∃ d,
    dict_get d (Pipeline.jobs (Pipeline.remove_job "process" Examples.three_jobs).2)
      = None ∧
    Pipeline.get_execution_order 4 (Pipeline.remove_job "process" Examples.three_jobs).2
      = Raise (Pipeline.missing_dependency d).
Proof.
  apply (remove_job_breaks_dependents 4 Examples.three_jobs "process" "save").
  - apply dict_wf_check. reflexivity.
  - apply (ranked_acyclic (index_of ["load"; "process"; "save"])). reflexivity.
  - done.
  - eexists. split; [reflexivity|]. left.
  - simpl. lia.
Defined.

(* ===================================================================== *)
(** ** Further properties: the execution order *)
(* ===================================================================== *)

Lemma for_each_ext {S A} (f g : A → M S unit) (l : list A) (s : S) :
  (∀ x s', f x s' = g x s') → for_each f l s = for_each g l s.
Proof.
  intros Hfg. revert s. induction l as [|x l IH]; intros s; [done|].
  rewrite !for_each_cons, Hfg. destruct (g x s) as [[[]|e] s']; [apply IH | done].
Qed.

(** The traversal reads nothing of the jobs but their names and
    [depends_on] lists. *)
Lemma visit_statics js js' :
  statics js = statics js' →
  ∀ depth k st, Pipeline.visit js depth k st = Pipeline.visit js' depth k st.
Proof.
  intros Hst. induction depth as [|depth IH]; intros k st; [done|].
  rewrite !visit_S. case_decide; [done|].
  pose proof (statics_get k js) as G. rewrite Hst, statics_get in G.
  destruct (dict_get k js) as [job|], (dict_get k js') as [job'|];
    simpl in G; try done.
  injection G as _ _ Hd _. rewrite Hd.
  by rewrite (for_each_ext _ _ _ _ (IH)).
Qed.

Lemma get_execution_order_statics limit p p' :
  statics (Pipeline.jobs p) = statics (Pipeline.jobs p') →
  Pipeline.get_execution_order limit p = Pipeline.get_execution_order limit p'.
Proof.
  intros Hst. unfold Pipeline.get_execution_order.
  rewrite (statics_keys _ _ Hst).
  by rewrite (for_each_ext _ _ _ _ (visit_statics _ _ Hst limit)).
Qed.

Lemma merge_initial_name ic p :
  Pipeline.name (Pipeline.merge_initial ic p) = Pipeline.name p.
Proof. destruct ic as [c|]; simpl; [|done]. by case_decide. Qed.

(** [run] keeps the name of the pipeline and the static parts of its
    jobs. *)
Lemma run_statics now limit ic p env r st' :
  Pipeline.run now limit ic (p, env) = (r, st') →
  statics (Pipeline.jobs st'.1) = statics (Pipeline.jobs p) ∧
  Pipeline.name st'.1 = Pipeline.name p.
Proof.
  unfold Pipeline.run.
  destruct (Pipeline.get_execution_order _ _) as [order|e].
  - destruct (for_each _ _ _) as [rl [p2 env2]] eqn:Hloop.
    destruct (run_jobs_frame now _ _ _ _ Hloop) as (Hst & Hn & _).
    simpl in Hst, Hn. rewrite merge_initial_jobs in Hst.
    rewrite merge_initial_name in Hn.
    destruct rl as [[]|e]; by intros [= <- <-].
  - intros [= <- <-]. simpl. by rewrite merge_initial_jobs, merge_initial_name.
Qed.

(** X4: whatever its outcome, [run] adds no job, removes none, and
    changes no job's name, callable, dependencies or parameters, nor the
    pipeline's name; so the execution order computed after a run is the one
    computed before it, under every recursion limit. *)
Theorem run_keeps_jobs_and_order (now : nat → Z) (limit : nat)
    (ic : option Context) (p p' : Pipeline.t) (env env' : Env) (r : Res Context) :
  Pipeline.run now limit ic (p, env) = (r, (p', env')) →
  statics (Pipeline.jobs p') = statics (Pipeline.jobs p) ∧
  dict_keys (Pipeline.jobs p') = dict_keys (Pipeline.jobs p) ∧
  Pipeline.name p' = Pipeline.name p ∧
  ∀ limit', Pipeline.get_execution_order limit' p'
            = Pipeline.get_execution_order limit' p.
Proof.
  intros Hrun. destruct (run_statics _ _ _ _ _ _ _ Hrun) as [Hst Hn]. simpl in *.
  split; [done|]. split; [by apply statics_keys|]. split; [done|].
  intros limit'. by apply get_execution_order_statics.
Qed.

Lemma run_keeps_jobs_and_order_witness :
  statics (Pipeline.jobs
    (Pipeline.run Examples.clock 4 None (Examples.failing_pipeline, Examples.env0)).2.1)
    = statics (Pipeline.jobs Examples.failing_pipeline) ∧
  dict_keys (Pipeline.jobs
    (Pipeline.run Examples.clock 4 None (Examples.failing_pipeline, Examples.env0)).2.1)
    = ["first"; "second"; "third"] ∧
  Pipeline.name
    (Pipeline.run Examples.clock 4 None (Examples.failing_pipeline, Examples.env0)).2.1
    = "failing" ∧
  ∀ limit', Pipeline.get_execution_order limit'
      (Pipeline.run Examples.clock 4 None (Examples.failing_pipeline, Examples.env0)).2.1
    = Pipeline.get_execution_order limit' Examples.failing_pipeline.
Proof.
  exact (run_keeps_jobs_and_order Examples.clock 4 None Examples.failing_pipeline
           _ Examples.env0 _ _ eq_refl).
Defined.

Lemma keyed_by_name_statics js js' :
  statics js = statics js' → keyed_by_name js → keyed_by_name js'.
Proof.
  intros Hst.
  assert (Hk : ∀ l, keyed_by_name l ↔
            Forall (λ ks : string * (string * Callable * list string * gmap string pyval),
                      ks.2.1.1.1 = ks.1) (statics l)).
  { intros l. unfold keyed_by_name, statics. by rewrite Forall_fmap. }
  rewrite !Hk. by rewrite Hst.
Qed.

(** X5: the two invariants of the jobs mapping, that no name occurs twice
    and that every job is stored under its own name, hold of the empty
    pipeline and are kept by [add_job] (also when it raises), by
    [remove_job] and by [run] (whatever its outcome). *)
Theorem pipeline_invariants_preserved (p : Pipeline.t) :
  dict_wf (Pipeline.jobs p) →
  keyed_by_name (Pipeline.jobs p) →
  (∀ nm, dict_wf (Pipeline.jobs (Pipeline.init nm)) ∧
         keyed_by_name (Pipeline.jobs (Pipeline.init nm))) ∧
  (∀ job, dict_wf (Pipeline.jobs (Pipeline.add_job job p).2) ∧
          keyed_by_name (Pipeline.jobs (Pipeline.add_job job p).2)) ∧
  (∀ k, dict_wf (Pipeline.jobs (Pipeline.remove_job k p).2) ∧
        keyed_by_name (Pipeline.jobs (Pipeline.remove_job k p).2)) ∧
  (∀ now limit ic env,
     dict_wf (Pipeline.jobs (Pipeline.run now limit ic (p, env)).2.1) ∧
     keyed_by_name (Pipeline.jobs (Pipeline.run now limit ic (p, env)).2.1)).
Proof.
  intros Hwf Hkey. split; [|split; [|split]].
  - intros nm. split; [constructor | constructor].
  - intros job. unfold Pipeline.add_job, dict_contains.
    destruct (dict_get (Job.name job) (Pipeline.jobs p)) eqn:Hk; [done|]. simpl.
    split; [by apply dict_wf_set|].
    rewrite dict_set_absent by done. apply Forall_app. split; [done|].
    by constructor.
  - intros k. rewrite remove_job_jobs. split; [by apply dict_wf_del|].
    by apply Forall_dict_del.
  - intros now limit ic env.
    destruct (Pipeline.run now limit ic (p, env)) as [r st'] eqn:Hrun.
    destruct (run_statics _ _ _ _ _ _ _ Hrun) as [Hst _]. cbn [fst snd]. split.
    + unfold dict_wf. by rewrite (statics_keys _ _ Hst).
    + by apply (keyed_by_name_statics (Pipeline.jobs p)).
Qed.

Lemma pipeline_invariants_preserved_witness :
  dict_wf (Pipeline.jobs
    (Pipeline.run Examples.clock 4 None (Examples.failing_pipeline, Examples.env0)).2.1) ∧
  keyed_by_name (Pipeline.jobs
    (Pipeline.run Examples.clock 4 None (Examples.failing_pipeline, Examples.env0)).2.1).
Proof.
  apply (pipeline_invariants_preserved Examples.failing_pipeline).
  - apply dict_wf_check. reflexivity.
  - by repeat constructor.
Defined.

Lemma for_each_visit_seen js depth deps st :
  (∀ d, d ∈ deps → d ∈ st.1) →
  for_each (Pipeline.visit js (S depth)) deps st = (Ok tt, st).
Proof.
  induction deps as [|d deps IH]; intros Hseen; [done|].
  rewrite for_each_cons, visit_S, decide_True by (apply Hseen; left).
  apply IH. intros d' Hd'. apply Hseen. by right.
Qed.

Lemma visit_in_insertion_order js n :
  ∀ rest seen,
    NoDup (seen ++ dict_keys rest) →
    (∀ k job, (k, job) ∈ rest → dict_get k js = Some job) →
    deps_inserted_before seen rest = true →
    for_each (Pipeline.visit js (S (S n))) (dict_keys rest) (list_to_set seen, seen)
    = (Ok tt, (list_to_set (seen ++ dict_keys rest), seen ++ dict_keys rest)).
Proof.
  unfold dict_keys.
  induction rest as [|[k job] rest IH]; intros seen Hnd Hget Hdeps.
  { simpl. by rewrite app_nil_r. }
  rewrite fmap_cons in Hnd |- *. cbn [fst] in Hnd |- *.
  simpl in Hdeps. apply andb_true_iff in Hdeps as [Hk Hrest].
  rewrite for_each_cons, visit_S.
  rewrite decide_False.
  2:{ simpl. rewrite elem_of_list_to_set. intros Hin.
      apply NoDup_app in Hnd as (_ & Hdisj & _). apply (Hdisj _ Hin). left. }
  rewrite (Hget k job) by left.
  rewrite for_each_visit_seen.
  2:{ intros d Hd. simpl. rewrite elem_of_list_to_set.
      rewrite forallb_forall in Hk. apply list_elem_of_In in Hd.
      exact (bool_decide_eq_true_1 _ (Hk _ Hd)). }
  cbn [fst snd].
  replace ({[k]} ∪ list_to_set seen : gset string)
    with (list_to_set (seen ++ [k]) : gset string).
  2:{ rewrite list_to_set_app_L. simpl. rewrite (right_id_L ∅ (∪)).
      apply (comm_L (∪)). }
  rewrite IH.
  - by rewrite <- !app_assoc.
  - by rewrite <- app_assoc.
  - intros k' job' Hin. apply Hget. by right.
  - done.
Qed.

(** X6: when every job was added after the jobs it depends on (in
    particular when no job has a dependency), [get_execution_order] returns
    the job names in insertion order; two frames are all the recursion it
    takes. *)
Theorem execution_order_is_insertion_order (limit : nat) (p : Pipeline.t) :
  dict_wf (Pipeline.jobs p) →
  deps_inserted_before [] (Pipeline.jobs p) = true →
  2 ≤ limit →
  Pipeline.get_execution_order limit p = Ok (dict_keys (Pipeline.jobs p)).
Proof.
  intros Hwf Hdeps Hlimit.
  destruct limit as [|[|n]]; [lia | lia |].
  unfold Pipeline.get_execution_order.
  change (∅ : gset string) with (list_to_set [] : gset string).
  rewrite (visit_in_insertion_order (Pipeline.jobs p) n (Pipeline.jobs p) []).
  - done.
  - exact Hwf.
  - intros k job Hin. by apply dict_get_elem_wf.
  - done.
Qed.

(** The demo's five jobs run in the order in which it adds them. *)
Lemma execution_order_is_insertion_order_witness :
  Pipeline.get_execution_order 2 Examples.demo_jobs
    = Ok ["load"; "normalize"; "metrics"; "export"; "privacy"].
Proof.
  apply (execution_order_is_insertion_order 2 Examples.demo_jobs).
  - apply dict_wf_check. reflexivity.
  - reflexivity.
  - lia.
Defined.

Lemma for_each_visit_deeper js n l :
  (∀ k st r st', Pipeline.visit js n k st = (r, st') → r ≠ Raise recursion_error →
                 Pipeline.visit js (S n) k st = (r, st')) →
  ∀ st r st',
    for_each (Pipeline.visit js n) l st = (r, st') → r ≠ Raise recursion_error →
    for_each (Pipeline.visit js (S n)) l st = (r, st').
Proof.
  intros Hvisit. induction l as [|x l IH]; intros st r st'; [done|].
  rewrite !for_each_cons.
  destruct (Pipeline.visit js n x st) as [[[]|e] sx] eqn:Hx.
  - intros Hrest Hr. rewrite (Hvisit _ _ _ _ Hx) by done. by apply IH.
  - intros [= <- <-] Hr. by rewrite (Hvisit _ _ _ _ Hx).
Qed.

Lemma visit_deeper js n :
  ∀ k st r st', Pipeline.visit js n k st = (r, st') → r ≠ Raise recursion_error →
                Pipeline.visit js (S n) k st = (r, st').
Proof.
  induction n as [|n IH]; intros k st r st'.
  { intros [= <- <-] Hr. done. }
  rewrite (visit_S js (S n)), (visit_S js n). case_decide; [done|].
  destruct (dict_get k js) as [job|]; [|done].
  destruct (for_each (Pipeline.visit js n) _ _) as [rl s1] eqn:Hloop.
  intros Hres Hr.
  rewrite (for_each_visit_deeper js n _ IH _ _ _ Hloop); [done|].
  destruct rl as [[]|e]; [done|]. by injection Hres as <- <-.
Qed.

(** X7: the recursion limit matters only when it is exceeded: an order,
    or a missing-dependency error, obtained under one limit is obtained
    unchanged under every larger one. *)
Theorem execution_order_limit_irrelevant (limit limit' : nat) (p : Pipeline.t)
    (r : Res (list string)) :
  Pipeline.get_execution_order limit p = r →
  r ≠ Raise recursion_error →
  limit ≤ limit' →
  Pipeline.get_execution_order limit' p = r.
Proof.
  intros Hres Hr Hle. induction Hle as [|m Hle IH]; [done|].
  revert IH. unfold Pipeline.get_execution_order.
  destruct (for_each (Pipeline.visit (Pipeline.jobs p) m) _ _) as [rl st] eqn:Hloop.
  intros Hm.
  rewrite (for_each_visit_deeper _ m _ (visit_deeper _ m) _ _ _ Hloop); [done|].
  intros ->. destruct st. by subst r.
Qed.

Lemma execution_order_limit_irrelevant_witness :
  Pipeline.get_execution_order 10 Examples.three_jobs
    = Ok ["load"; "process"; "save"].
Proof.
  apply (execution_order_limit_irrelevant 3 10 Examples.three_jobs).
  - reflexivity.
  - discriminate.
  - lia.
Defined.

(* ===================================================================== *)
(** ** Further properties: a run *)
(* ===================================================================== *)

Section completed_facts.
Variable now : nat → Z.
Variables (p : Pipeline.t) (env : Env) (order : list string).
Hypothesis Hdeps : ∀ i x d, order !! i = Some x → depends (Pipeline.jobs p) x d →
                     ∃ j, j < i ∧ order !! j = Some d.

(** The jobs the loop has gone through were all executed: each is Success
    with both timestamps, took two clock reads and got one assignment. *)
Lemma run_jobs_completed l1 l2 s1 :
  order = l1 ++ l2 →
  for_each (Pipeline.run_job now) l1 (p, env) = (Ok tt, s1) →
  (∀ x, x ∈ l1 →
     ∃ job, dict_get x (Pipeline.jobs s1.1) = Some job ∧
       Job.status job = SUCCESS ∧
       is_Some (Job.start_time job) ∧ is_Some (Job.end_time job)) ∧
  ticks s1.2 = ticks env + 2 * length l1 ∧
  ∃ W, writes s1.2 = writes env ++ W ∧ W.*1 = Pipeline.result_key <$> l1.
Proof.
  intros El Hloop.
  assert (Hsucc : ∀ a b sa, l1 = a ++ b →
            for_each (Pipeline.run_job now) a (p, env) = (Ok tt, sa) →
            statics (Pipeline.jobs sa.1) = statics (Pipeline.jobs p) ∧
            ∀ x, x ∈ a → status_of (Pipeline.jobs sa.1) x = Some SUCCESS).
  { intros a b sa Ea. apply (run_jobs_all_success now p env order Hdeps a (b ++ l2)).
    by rewrite El, Ea, <- app_assoc. }
  cut (for_each (Pipeline.run_job now) l1 (p, env) = (Ok tt, s1) ∧
       (∀ x, x ∈ l1 →
          ∃ job, dict_get x (Pipeline.jobs s1.1) = Some job ∧
            Job.status job = SUCCESS ∧
            is_Some (Job.start_time job) ∧ is_Some (Job.end_time job)) ∧
       ticks s1.2 = ticks env + 2 * length l1 ∧
       ∃ W, writes s1.2 = writes env ++ W ∧ W.*1 = Pipeline.result_key <$> l1).
  { intros (_ & G). exact G. }
  revert Hloop.
  apply (for_each_ok_inv (Pipeline.run_job now)
           (λ done s,
              for_each (Pipeline.run_job now) done (p, env) = (Ok tt, s) ∧
              (∀ x, x ∈ done →
                 ∃ job, dict_get x (Pipeline.jobs s.1) = Some job ∧
                   Job.status job = SUCCESS ∧
                   is_Some (Job.start_time job) ∧ is_Some (Job.end_time job)) ∧
              ticks s.2 = ticks env + 2 * length done ∧
              ∃ W, writes s.2 = writes env ++ W ∧
                   W.*1 = Pipeline.result_key <$> done)).
  { split; [done|]. split; [intros x Hx; inversion Hx|]. split; [simpl; lia|].
    exists []. by rewrite app_nil_r. }
  intros a x b [pa enva] s2 Ea (Hpre & Hdone & Hticks & W & HW & HWk) Hstep.
  simpl in Hdone, Hticks, HW.
  assert (Hloop2 : for_each (Pipeline.run_job now) (a ++ [x]) (p, env) = (Ok tt, s2)).
  { by rewrite for_each_app, Hpre, for_each_cons, Hstep. }
  split; [done|].
  destruct (Hsucc a (x :: b) (pa, enva) Ea Hpre) as [Hst Hall]. simpl in Hst, Hall.
  apply run_job_step in Hstep.
  destruct (job_step_inv _ _ _ _ _ _ Hstep) as
    [(Hnone & [=] & _)
    |[(job & d & Hjob & Hd & Hnone & [=] & _)
    |[(job & d & dep_job & Hjob & Hd & Hdj & Hne & _ & ->)
    |[(job & v & Hjob & Hgate & Hout & _ & ->)
    |(job & e & Hjob & Hgate & Hout & [=] & _)]]]].
  - exfalso.
    assert (depends (Pipeline.jobs p) x d) as Hdep.
    { apply (statics_depends (Pipeline.jobs pa)); [done|]. by exists job. }
    assert (order !! length a = Some x) as Hx.
    { rewrite El, Ea, <- !app_assoc. simpl. by rewrite list_lookup_middle. }
    destruct (Hdeps _ _ _ Hx Hdep) as (j & Hj & Hjd).
    rewrite El, Ea, <- !app_assoc, lookup_app_l in Hjd by done.
    apply list_elem_of_lookup_2, Hall in Hjd.
    unfold status_of in Hjd. rewrite Hdj in Hjd. simpl in Hjd. congruence.
  - simpl. split; [|split].
    + intros y Hy. destruct (decide (y = x)) as [->|Hyx].
      * rewrite dict_get_set_eq. eexists. split; [done|]. simpl. eauto.
      * rewrite dict_get_set_ne by done.
        apply elem_of_app in Hy as [Hy|Hy]; [by apply Hdone|].
        by apply list_elem_of_singleton in Hy.
    + rewrite length_app. simpl. lia.
    + exists (W ++ [(Pipeline.result_key x, v)]).
      split; [by rewrite HW, <- app_assoc|].
      by rewrite !fmap_app, HWk.
Qed.
End completed_facts.

Lemma get_execution_order_deps limit p order :
  Pipeline.get_execution_order limit p = Ok order →
  ∀ i x d, order !! i = Some x → depends (Pipeline.jobs p) x d →
    ∃ j, j < i ∧ order !! j = Some d.
Proof.
  intros Hok i x d Hi Hd.
  destruct (get_execution_order_Ok _ _ _ Hok) as (_ & _ & Hdeps).
  apply (Hdeps i x d Hi). by apply tc_once.
Qed.

(** X8: the dependency gate of [run] never fires. Whatever the statuses of
    the jobs before the run, every job the loop gets to has all its
    dependencies Success and is executed, so [run] sets no job to Skipped: a
    job that is Skipped after the run was Skipped before it. *)
Theorem run_never_marks_skipped (now : nat → Z) (limit : nat)
    (ic : option Context) (p p' : Pipeline.t) (env env' : Env) (r : Res Context)
    (k : string) :
  Pipeline.run now limit ic (p, env) = (r, (p', env')) →
  status_of (Pipeline.jobs p) k ≠ Some SKIPPED →
  status_of (Pipeline.jobs p') k ≠ Some SKIPPED.
Proof.
  intros Hrun Hbefore. unfold Pipeline.run in Hrun.
  set (p0 := Pipeline.merge_initial ic p) in *.
  assert (Hjobs0 : Pipeline.jobs p0 = Pipeline.jobs p) by apply merge_initial_jobs.
  destruct (Pipeline.get_execution_order limit p0) as [order|e] eqn:Hord.
  2:{ injection Hrun as <- <- <-. by rewrite Hjobs0. }
  pose proof (get_execution_order_deps _ _ _ Hord) as Hdeps.
  destruct (get_execution_order_Ok _ _ _ Hord) as (Hnd & Hkeys & _).
  destruct (get_execution_order_Ok_graph _ _ _ Hord) as (Hpres & _).
  destruct (for_each _ _ _) as [[[]|e] [p2 env2]] eqn:Hloop.
  - injection Hrun as <- <- <-.
    destruct (run_jobs_all_success now p0 env order Hdeps order [] (p2, env2))
      as [_ Hall]; [by rewrite app_nil_r | done |]. simpl in Hall.
    destruct (decide (k ∈ order)) as [Hin|Hnin].
    + rewrite (Hall _ Hin). congruence.
    + destruct (run_jobs_frame now _ _ _ _ Hloop) as (_ & _ & Hframe).
      simpl in Hframe. unfold status_of. rewrite (Hframe _ Hnin), Hjobs0. exact Hbefore.
  - injection Hrun as <- <- <-.
    apply run_jobs_raise in Hloop
      as (l1 & x & l2 & [p1 env1] & job & El & Hl1 & Hjob & _ & Hout & Hst');
      [|by intros y Hy; apply dict_get_is_Some, Hkeys | done].
    injection Hst' as -> ->. simpl in *.
    destruct (run_jobs_all_success now p0 env order Hdeps l1 (x :: l2) (p1, env1))
      as [_ Hall]; [done | done |]. simpl in Hall.
    destruct (run_jobs_frame now _ _ _ _ Hl1) as (_ & _ & Hframe). simpl in Hframe.
    unfold status_of. destruct (decide (k = x)) as [->|Hkx].
    + rewrite dict_get_set_eq. unfold failed.
      by destruct (isinstance_Exception e).
    + rewrite dict_get_set_ne by done.
      destruct (decide (k ∈ l1)) as [Hin|Hnin].
      * specialize (Hall _ Hin). unfold status_of in Hall. rewrite Hall. congruence.
      * rewrite (Hframe _ Hnin), Hjobs0. exact Hbefore.
Qed.

(** A second run of the pipeline whose first job fails: the jobs it left
    Failed and Pending are not Skipped afterwards either. *)
Lemma run_never_marks_skipped_witness :
  status_of (Pipeline.jobs
    (Pipeline.run Examples.clock 4 None
       ((Pipeline.run Examples.clock 4 None
           (Examples.failing_pipeline, Examples.env0)).2.1,
        Examples.env0)).2.1) "second"
  ≠ Some SKIPPED ∧
  status_of (Pipeline.jobs
    (Pipeline.run Examples.clock 4 None
       (Examples.failing_pipeline, Examples.env0)).2.1) "second"
  = Some PENDING.
Proof.
  split; [|reflexivity].
  apply (run_never_marks_skipped Examples.clock 4 None
           (Pipeline.run Examples.clock 4 None
              (Examples.failing_pipeline, Examples.env0)).2.1
           _ Examples.env0 _ _ "second" eq_refl).
  discriminate.
Defined.

(** What a run that returns has done to the jobs of its order. *)
Lemma completed_run_jobs now limit ic p p' env env' ctx :
  Pipeline.run now limit ic (p, env) = (Ok ctx, (p', env')) →
  ∃ order,
    Pipeline.get_execution_order limit p = Ok order ∧
    ctx = Pipeline.context p' ∧
    (∀ x, x ∈ order →
       ∃ job, dict_get x (Pipeline.jobs p') = Some job ∧
         Job.status job = SUCCESS ∧
         is_Some (Job.start_time job) ∧ is_Some (Job.end_time job)) ∧
    ticks env' = ticks env + 2 * length order ∧
    ∃ W, writes env' = writes env ++ W ∧ W.*1 = Pipeline.result_key <$> order.
Proof.
  intros Hrun. unfold Pipeline.run in Hrun.
  rewrite (get_execution_order_jobs limit _ p (merge_initial_jobs ic p)) in Hrun.
  destruct (Pipeline.get_execution_order limit p) as [order|e] eqn:Hord; [|done].
  exists order. split; [done|].
  assert (Hdeps0 : ∀ i x d, order !! i = Some x →
            depends (Pipeline.jobs (Pipeline.merge_initial ic p)) x d →
            ∃ j, j < i ∧ order !! j = Some d).
  { intros i x d Hi Hd. rewrite merge_initial_jobs in Hd.
    by apply (get_execution_order_deps _ _ _ Hord i x d). }
  destruct (for_each _ _ _) as [[[]|e] [p2 env2]] eqn:Hloop; [|done].
  injection Hrun as <- <- <-. split; [done|].
  by apply (run_jobs_completed now _ env order Hdeps0 order [] (p2, env2));
    [rewrite app_nil_r|].
Qed.

Lemma completed_run_statuses now limit ic p p' env env' ctx :
  Pipeline.run now limit ic (p, env) = (Ok ctx, (p', env')) →
  ∀ k job, dict_get k (Pipeline.jobs p') = Some job →
    Job.status job = SUCCESS ∧ is_Some (Job.get_duration job).
Proof.
  intros Hrun k job Hjob.
  pose proof Hrun as Hst. apply run_statics in Hst as [Hst _]. simpl in Hst.
  destruct (completed_run_jobs _ _ _ _ _ _ _ _ Hrun) as (order & Hord & _ & Hall & _).
  destruct (get_execution_order_Ok _ _ _ Hord) as (_ & Hkeys & _).
  assert (k ∈ order) as Hin.
  { apply Hkeys, dict_get_is_Some.
    apply (statics_is_Some (Pipeline.jobs p')); [done|]. by rewrite Hjob. }
  destruct (Hall _ Hin) as (job' & Hjob' & Hs & [s Hstart] & [e' Hend]).
  rewrite Hjob in Hjob'. injection Hjob' as <-. split; [done|].
  unfold Job.get_duration. rewrite Hstart, Hend. eauto.
Qed.

(** X9: a run that returns, whatever the statuses of the jobs before it,
    returns the pipeline's final context and has executed every job: each
    is Success with a recorded duration, the clock was read twice per job,
    and the results were assigned one per job, in execution order. On a
    pipeline whose job names are distinct the execution order is a
    permutation of the job names. *)
Theorem completed_run_executes_every_job (now : nat → Z) (limit : nat)
    (ic : option Context) (p p' : Pipeline.t) (env env' : Env) (ctx : Context) :
  Pipeline.run now limit ic (p, env) = (Ok ctx, (p', env')) →
  ∃ order,
    Pipeline.get_execution_order limit p = Ok order ∧
    ctx = Pipeline.context p' ∧
    (∀ k job, dict_get k (Pipeline.jobs p') = Some job →
       Job.status job = SUCCESS ∧ is_Some (Job.get_duration job)) ∧
    ticks env' = ticks env + 2 * length order ∧
    (∃ W, writes env' = writes env ++ W ∧ W.*1 = Pipeline.result_key <$> order) ∧
    (dict_wf (Pipeline.jobs p) → order ≡ₚ dict_keys (Pipeline.jobs p)).
Proof.
  intros Hrun.
  destruct (completed_run_jobs _ _ _ _ _ _ _ _ Hrun)
    as (order & Hord & Hctx & _ & Hticks & HW).
  exists order. split; [done|]. split; [done|].
  split; [by apply (completed_run_statuses _ _ _ _ _ _ _ _ Hrun)|].
  split; [done|]. split; [done|].
  destruct (get_execution_order_Ok _ _ _ Hord) as (Hnd & Hkeys & _).
  intros Hwf. by apply NoDup_Permutation.
Qed.

Lemma completed_run_executes_every_job_witness :
  ∃ order,
    Pipeline.get_execution_order 3 Examples.two_jobs = Ok order ∧
    (Pipeline.run Examples.clock 3 None
       (Examples.two_jobs, Examples.env0)).2.1.(Pipeline.context)
      = Pipeline.context
          (Pipeline.run Examples.clock 3 None (Examples.two_jobs, Examples.env0)).2.1 ∧
    (∀ k job,
       dict_get k (Pipeline.jobs
         (Pipeline.run Examples.clock 3 None (Examples.two_jobs, Examples.env0)).2.1)
       = Some job →
       Job.status job = SUCCESS ∧ is_Some (Job.get_duration job)) ∧
    ticks (Pipeline.run Examples.clock 3 None (Examples.two_jobs, Examples.env0)).2.2
      = ticks Examples.env0 + 2 * length order ∧
    (∃ W,
       writes (Pipeline.run Examples.clock 3 None
                 (Examples.two_jobs, Examples.env0)).2.2
         = writes Examples.env0 ++ W ∧
       W.*1 = Pipeline.result_key <$> order) ∧
    (dict_wf (Pipeline.jobs Examples.two_jobs) →
     order ≡ₚ dict_keys (Pipeline.jobs Examples.two_jobs)).
Proof.
  exact (completed_run_executes_every_job Examples.clock 3 None Examples.two_jobs
           _ Examples.env0 _ _ eq_refl).
Defined.

Lemma status_counts_lookup (q : Pipeline.t) (st : JobStatus) :
  dict_get (JobStatus_value st) (sm_status_counts (Pipeline.get_status_summary q))
  = Some (count_with_status st (Pipeline.jobs q)).
Proof.
  unfold Pipeline.get_status_summary. cbn [sm_status_counts].
  rewrite dict_get_status_value, fold_count_status.
  - unfold count_with_status. by destruct st.
  - intros []; simpl; eauto.
Qed.

Lemma sm_jobs_lookup (q : Pipeline.t) (k : string) :
  dict_get k (sm_jobs (Pipeline.get_status_summary q))
  = job_summary <$> dict_get k (Pipeline.jobs q).
Proof.
  unfold Pipeline.get_status_summary. cbn [sm_jobs].
  induction (Pipeline.jobs q) as [|[k0 j0] js IH]; simpl; [done|].
  by case_decide.
Qed.

Lemma count_with_status_all (st : JobStatus) (js : list (string * Job.t)) :
  (∀ k job, (k, job) ∈ js → Job.status job = st) →
  count_with_status st js = length js ∧
  ∀ st', st' ≠ st → count_with_status st' js = 0.
Proof.
  unfold count_with_status, dict_values.
  induction js as [|[k job] js IH]; intros Hall; [done|].
  destruct IH as [IH1 IH2]. { intros k' job' Hin. apply (Hall k'). by right. }
  pose proof (Hall k job ltac:(left)) as Hs. csimpl. split.
  - rewrite filter_cons_True by done. simpl. by rewrite IH1.
  - intros st' Hne. rewrite filter_cons_False by (simpl; congruence). by apply IH2.
Qed.

(** X10: after a run that returns, on a pipeline whose job names are
    distinct, the status summary counts every job as [success] and none
    under any other status. *)
Theorem completed_run_summary (now : nat → Z) (limit : nat)
    (ic : option Context) (p p' : Pipeline.t) (env env' : Env) (ctx : Context) :
  dict_wf (Pipeline.jobs p) →
  Pipeline.run now limit ic (p, env) = (Ok ctx, (p', env')) →
  sm_total_jobs (Pipeline.get_status_summary p') = length (Pipeline.jobs p) ∧
  dict_get "success" (sm_status_counts (Pipeline.get_status_summary p'))
    = Some (length (Pipeline.jobs p)) ∧
  (∀ st, st ≠ SUCCESS →
     dict_get (JobStatus_value st) (sm_status_counts (Pipeline.get_status_summary p'))
     = Some 0) ∧
  (∀ k, is_Some (dict_get k (Pipeline.jobs p)) →
     ∃ js, dict_get k (sm_jobs (Pipeline.get_status_summary p')) = Some js ∧
           js_status js = "success" ∧ is_Some (js_duration js)).
Proof.
  intros Hwf Hrun. pose proof Hrun as Hst. apply run_statics in Hst as [Hst _].
  simpl in Hst.
  assert (Hlen : length (Pipeline.jobs p') = length (Pipeline.jobs p)).
  { by rewrite <- !length_dict_keys, (statics_keys _ _ Hst). }
  assert (Hwf' : dict_wf (Pipeline.jobs p')).
  { unfold dict_wf. by rewrite (statics_keys _ _ Hst). }
  pose proof (completed_run_statuses now limit ic p p' env env' ctx Hrun) as Hall.
  destruct (count_with_status_all SUCCESS (Pipeline.jobs p')) as [Hc1 Hc0].
  { intros k job Hin. apply (Hall k). by apply dict_get_elem_wf. }
  split; [simpl; exact Hlen|]. split.
  { change "success" with (JobStatus_value SUCCESS).
    by rewrite status_counts_lookup, Hc1, Hlen. }
  split.
  { intros st Hne. by rewrite status_counts_lookup, Hc0. }
  intros k Hk. apply (statics_is_Some _ (Pipeline.jobs p')) in Hk as [job Hjob]; [|done].
  rewrite sm_jobs_lookup, Hjob. eexists. split; [done|]. simpl.
  destruct (Hall _ _ Hjob) as [-> Hd]. done.
Qed.

Lemma completed_run_summary_witness :
  sm_total_jobs (Pipeline.get_status_summary
    (Pipeline.run Examples.clock 4 None (Examples.three_jobs, Examples.env0)).2.1) = 3 ∧
  dict_get "success" (sm_status_counts (Pipeline.get_status_summary
    (Pipeline.run Examples.clock 4 None (Examples.three_jobs, Examples.env0)).2.1))
    = Some 3 ∧
  (∀ st, st ≠ SUCCESS →
     dict_get (JobStatus_value st) (sm_status_counts (Pipeline.get_status_summary
       (Pipeline.run Examples.clock 4 None (Examples.three_jobs, Examples.env0)).2.1))
     = Some 0) ∧
  (∀ k, is_Some (dict_get k (Pipeline.jobs Examples.three_jobs)) →
     ∃ js, dict_get k (sm_jobs (Pipeline.get_status_summary
             (Pipeline.run Examples.clock 4 None
                (Examples.three_jobs, Examples.env0)).2.1)) = Some js ∧
           js_status js = "success" ∧ is_Some (js_duration js)).
Proof.
  apply (completed_run_summary Examples.clock 4 None Examples.three_jobs
           _ Examples.env0
           (Pipeline.run Examples.clock 4 None (Examples.three_jobs, Examples.env0)).2.2
           (Pipeline.context
              (Pipeline.run Examples.clock 4 None
                 (Examples.three_jobs, Examples.env0)).2.1)).
  - apply dict_wf_check. reflexivity.
  - reflexivity.
Defined.

Lemma two_jobs_leave_context :
  callables_leave_context (Pipeline.jobs Examples.two_jobs).
Proof.
  intros k job Hget kw ctx. simpl in Hget.
  repeat case_decide; simplify_eq; simpl; [done|].
  unfold Examples.double. by repeat case_match.
Qed.

(** X11: a job can read the results of its dependencies. When the
    callables leave the context alone and the loop of [run] gets to a job,
    every job it depends on is Success and the context handed to its
    callable holds, under [job_<dependency>_result], the result of that
    dependency; the dependency check lets the job run. *)
Theorem dependencies_results_in_context (now : nat → Z) (limit : nat)
    (ic : option Context) (p : Pipeline.t) (env : Env) (order before after : list string)
    (k : string) (s1 : Pipeline.t * Env) (job : Job.t) :
  Pipeline.get_execution_order limit p = Ok order →
  order = before ++ k :: after →
  for_each (Pipeline.run_job now) before (Pipeline.merge_initial ic p, env)
    = (Ok tt, s1) →
  callables_leave_context (Pipeline.jobs p) →
  dict_get k (Pipeline.jobs s1.1) = Some job →
  Pipeline.check_dependencies k (Job.depends_on job) s1.1 = (Ok true, s1.1) ∧
  ∀ d, d ∈ Job.depends_on job →
    ∃ dep_job,
      dict_get d (Pipeline.jobs s1.1) = Some dep_job ∧
      Job.status dep_job = SUCCESS ∧
      Pipeline.context s1.1 !! Pipeline.result_key d = Some (Job.result dep_job).
Proof.
  intros Hord El Hloop Hpure Hjob.
  set (p0 := Pipeline.merge_initial ic p) in *.
  assert (Hjobs0 : Pipeline.jobs p0 = Pipeline.jobs p) by apply merge_initial_jobs.
  destruct (get_execution_order_Ok _ _ _ Hord) as (Hnd & _ & _).
  assert (Hdeps0 : ∀ i x d, order !! i = Some x → depends (Pipeline.jobs p0) x d →
                     ∃ j, j < i ∧ order !! j = Some d).
  { intros i x d Hi Hd. rewrite Hjobs0 in Hd.
    by apply (get_execution_order_deps _ _ _ Hord i x d). }
  destruct s1 as [p1 env1].
  destruct (run_jobs_all_success now p0 env order Hdeps0 before (k :: after) (p1, env1))
    as [Hst Hall]; [done | done |]. simpl in Hst, Hall, Hjob |- *.
  assert (Hin : ∀ d, d ∈ Job.depends_on job → d ∈ before).
  { intros d Hd.
    assert (depends (Pipeline.jobs p0) k d) as Hdep.
    { apply (statics_depends (Pipeline.jobs p1)); [done|]. by exists job. }
    assert (order !! length before = Some k) as Hk.
    { rewrite El. by rewrite list_lookup_middle. }
    destruct (Hdeps0 _ _ _ Hk Hdep) as (j & Hj & Hjd).
    rewrite El, lookup_app_l in Hjd by done. by eapply list_elem_of_lookup_2. }
  split.
  { destruct (Pipeline.check_dependencies k (Job.depends_on job) p1) as [rc p2] eqn:Hc.
    apply check_dependencies_cases in Hc
      as [(-> & -> & _)|[(_ & _ & d & dj & Hd & Hdj & Hne)|(d & _ & _ & Hd & Hnone)]];
      [done| |].
    - specialize (Hall _ (Hin _ Hd)). unfold status_of in Hall.
      rewrite Hdj in Hall. simpl in Hall. congruence.
    - specialize (Hall _ (Hin _ Hd)). unfold status_of in Hall.
      by rewrite Hnone in Hall. }
  intros d Hd. pose proof (Hall _ (Hin _ Hd)) as Hsd. unfold status_of in Hsd.
  destruct (dict_get d (Pipeline.jobs p1)) as [dj|] eqn:Hdj; [|done].
  simpl in Hsd. injection Hsd as Hsd. exists dj. split; [done|]. split; [done|].
  assert (Hndb : NoDup before).
  { rewrite El in Hnd. by apply NoDup_app in Hnd as (? & _ & _). }
  destruct (run_jobs_writes now before Hndb _ _ _ _ _ Hloop)
    as (W & HW & Hsub & _ & Hcomplete).
  destruct (run_jobs_context now before p0 env (Ok tt) p1 env1) as (W' & HW' & Hctx);
    [by rewrite Hjobs0 | done |].
  rewrite HW in HW'. apply app_inv_head in HW' as <-.
  rewrite Hctx. apply replay_lookup.
  - eapply sublist_NoDup; [|exact Hsub].
    apply NoDup_fmap_2; [apply result_key_inj | done].
  - apply Hcomplete; [done | done |]. left. split; [done|]. by apply Hin.
Qed.

(** In the two-job example, [double] finds the result of [load]. *)
Lemma dependencies_results_in_context_witness :
  Pipeline.check_dependencies "double" ["load"]
    (for_each (Pipeline.run_job Examples.clock) ["load"]
       (Examples.two_jobs, Examples.env0)).2.1
  = (Ok true,
     (for_each (Pipeline.run_job Examples.clock) ["load"]
        (Examples.two_jobs, Examples.env0)).2.1) ∧
  ∀ d, d ∈ ["load"] →
    ∃ dep_job,
      dict_get d (Pipeline.jobs
        (for_each (Pipeline.run_job Examples.clock) ["load"]
           (Examples.two_jobs, Examples.env0)).2.1) = Some dep_job ∧
      Job.status dep_job = SUCCESS ∧
      Pipeline.context
        (for_each (Pipeline.run_job Examples.clock) ["load"]
           (Examples.two_jobs, Examples.env0)).2.1
        !! Pipeline.result_key d = Some (Job.result dep_job).
Proof.
  apply (dependencies_results_in_context Examples.clock 3 None Examples.two_jobs
           Examples.env0 ["load"; "double"] ["load"] [] "double"
           (for_each (Pipeline.run_job Examples.clock) ["load"]
              (Examples.two_jobs, Examples.env0)).2
           Examples.job_double).
  - reflexivity.
  - reflexivity.
  - reflexivity.
  - exact two_jobs_leave_context.
  - reflexivity.
Defined.

(** X12: the status summary of a pipeline whose run failed shows the
    failure. When the callable of a job raises an exception [e] that
    derives from [Exception], the summary taken after the run reports that
    job as [failed] with [str(e)] as its error and with a duration, and
    counts at least one failed job. *)
Theorem failed_run_summary (now : nat → Z) (limit : nat)
    (ic : option Context) (p p' : Pipeline.t) (env env' : Env)
    (order : list string) (e : PyExc) :
  Pipeline.get_execution_order limit p = Ok order →
  Pipeline.run now limit ic (p, env) = (Raise e, (p', env')) →
  isinstance_Exception e = true →
  ∃ failing js n,
    failing ∈ order ∧
    dict_get failing (sm_jobs (Pipeline.get_status_summary p')) = Some js ∧
    js_status js = "failed" ∧
    js_error js = Some (str e) ∧
    is_Some (js_duration js) ∧
    dict_get "failed" (sm_status_counts (Pipeline.get_status_summary p')) = Some (S n).
Proof.
  intros Hok Hrun Hexc. unfold Pipeline.run in Hrun.
  rewrite (get_execution_order_jobs limit _ p (merge_initial_jobs ic p)), Hok in Hrun.
  destruct (get_execution_order_Ok _ _ _ Hok) as (_ & Hkeys & _).
  destruct (get_execution_order_Ok_graph _ _ _ Hok) as (Hpres & _).
  destruct (for_each _ _ _) as [[[]|e0] [p2 env2]] eqn:Hloop; [done|].
  injection Hrun as -> -> ->.
  apply run_jobs_raise in Hloop
    as (l1 & x & l2 & [p1 env1] & job & El & _ & Hjob & _ & Hout & Hst').
  2:{ intros y Hy. rewrite merge_initial_jobs. by apply dict_get_is_Some, Hkeys. }
  2:{ by rewrite merge_initial_jobs. }
  injection Hst' as -> ->. cbn [fst snd] in *.
  assert (Hfinal : dict_get x (Pipeline.jobs
            (Pipeline.mk (Pipeline.name p1)
               (dict_set x (failed now (ticks env1) e job) (Pipeline.jobs p1))
               (context_after (call job (Pipeline.context p1)))))
          = Some (failed now (ticks env1) e job)).
  { simpl. apply dict_get_set_eq. }
  assert (Hfailed : failed now (ticks env1) e job
            = Job.mk (Job.name job) (Job.func job) (Job.depends_on job)
                (Job.params job) FAILED (Job.result job) (Some (str e))
                (Some (now (ticks env1))) (Some (now (S (ticks env1))))).
  { unfold failed. by rewrite Hexc. }
  pose proof (status_counts_lookup
                (Pipeline.mk (Pipeline.name p1)
                   (dict_set x (failed now (ticks env1) e job) (Pipeline.jobs p1))
                   (context_after (call job (Pipeline.context p1)))) FAILED) as Hcount.
  destruct (count_with_status FAILED _) as [|n] eqn:Hn.
  { exfalso. unfold count_with_status in Hn. apply length_zero_iff_nil in Hn.
    apply dict_get_Some_elem in Hfinal.
    eapply (filter_nil_not_elem_of _ _ (failed now (ticks env1) e job)) in Hn.
    - apply Hn. unfold dict_values. apply list_elem_of_fmap.
      exists (x, failed now (ticks env1) e job). split; [done | exact Hfinal].
    - by rewrite Hfailed. }
  exists x, (job_summary (failed now (ticks env1) e job)), n.
  split; [rewrite El; apply elem_of_app; right; left|].
  split; [by rewrite sm_jobs_lookup, Hfinal|].
  split; [by rewrite Hfailed|]. split; [by rewrite Hfailed|].
  split; [rewrite Hfailed; simpl; eauto|].
  exact Hcount.
Qed.

Lemma failed_run_summary_witness :
  ∃ failing js n,
    failing ∈ ["first"; "second"; "third"] ∧
    dict_get failing (sm_jobs (Pipeline.get_status_summary
      (Pipeline.run Examples.clock 4 None
         (Examples.failing_pipeline, Examples.env0)).2.1)) = Some js ∧
    js_status js = "failed" ∧
    js_error js = Some "boom" ∧
    is_Some (js_duration js) ∧
    dict_get "failed" (sm_status_counts (Pipeline.get_status_summary
      (Pipeline.run Examples.clock 4 None
         (Examples.failing_pipeline, Examples.env0)).2.1)) = Some (S n).
Proof.
  apply (failed_run_summary Examples.clock 4 None Examples.failing_pipeline
           _ Examples.env0
           (Pipeline.run Examples.clock 4 None
              (Examples.failing_pipeline, Examples.env0)).2.2
           ["first"; "second"; "third"] (mkExc OtherException "boom")).
  - reflexivity.
  - reflexivity.
  - reflexivity.
Defined.

Lemma merge_initial_lookup ic p key :
  Pipeline.context (Pipeline.merge_initial ic p) !! key
  = match ic with
    | Some c => match c !! key with
                | Some v => Some v
                | None => Pipeline.context p !! key
                end
    | None => Pipeline.context p !! key
    end.
Proof.
  destruct ic as [c|]; simpl; [|done]. case_decide as Hc.
  - subst c. by rewrite lookup_empty.
  - simpl. rewrite lookup_union. destruct (c !! key), (Pipeline.context p !! key); done.
Qed.

(** X13: [run] writes to the context only under the keys
    [job_<name>_result]. When the callables leave the context alone, every
    other key holds after the run, whatever its outcome, what it held after
    the merge of the initial context: the value given by [initial_context]
    if it has the key, the value the pipeline's context had otherwise. *)
Theorem run_keeps_other_context_entries (now : nat → Z) (limit : nat)
    (ic : option Context) (p p' : Pipeline.t) (env env' : Env) (r : Res Context)
    (key : string) :
  callables_leave_context (Pipeline.jobs p) →
  Pipeline.run now limit ic (p, env) = (r, (p', env')) →
  (∀ k, key ≠ Pipeline.result_key k) →
  Pipeline.context p' !! key
  = match ic with
    | Some c => match c !! key with
                | Some v => Some v
                | None => Pipeline.context p !! key
                end
    | None => Pipeline.context p !! key
    end.
Proof.
  intros Hpure Hrun Hkey. rewrite <- merge_initial_lookup.
  unfold Pipeline.run in Hrun.
  set (p0 := Pipeline.merge_initial ic p) in *.
  assert (Hjobs0 : Pipeline.jobs p0 = Pipeline.jobs p) by apply merge_initial_jobs.
  destruct (Pipeline.get_execution_order limit p0) as [order|e] eqn:Hord.
  2:{ by injection Hrun as <- <- <-. }
  destruct (get_execution_order_Ok _ _ _ Hord) as (Hnd & _ & _).
  destruct (for_each _ _ _) as [rl [p2 env2]] eqn:Hloop.
  assert (p' = p2) as ->.
  { destruct rl as [[]|e]; by injection Hrun as <- <- <-. }
  destruct (run_jobs_writes now order Hnd _ _ _ _ _ Hloop) as (W & HW & _ & Hin & _).
  destruct (run_jobs_context now order p0 env rl p2 env2) as (W' & HW' & Hctx);
    [by rewrite Hjobs0 | done |].
  rewrite HW in HW'. apply app_inv_head in HW' as <-.
  rewrite Hctx. apply replay_notin.
  intros Hk. apply list_elem_of_fmap in Hk as ([key' v] & -> & Hkv).
  destruct (Hin _ _ Hkv) as (k & _ & _ & Hk & _). by apply (Hkey k).
Qed.

(** The entry [mode] of the initial context replaces the one of the
    pipeline's context and is still there after the run. *)
Lemma run_keeps_other_context_entries_witness :
  Pipeline.context
    (Pipeline.run Examples.clock 3 (Some Examples.initial_mode)
       (Examples.two_jobs_with_context, Examples.env0)).2.1 !! "mode"
  = Some (VStr "new").
Proof.
  apply (run_keeps_other_context_entries Examples.clock 3
           (Some Examples.initial_mode) Examples.two_jobs_with_context
           _ Examples.env0
           (Pipeline.run Examples.clock 3 (Some Examples.initial_mode)
              (Examples.two_jobs_with_context, Examples.env0)).2.2
           (Pipeline.run Examples.clock 3 (Some Examples.initial_mode)
              (Examples.two_jobs_with_context, Examples.env0)).1
           "mode").
  - exact two_jobs_leave_context.
  - reflexivity.
  - intros k Hk. discriminate Hk.
Defined.

(** X14: [execute] assigns [error] only when the callable fails and never
    clears it. A job whose callable raised an [Exception] and which is then
    executed again successfully is Success and holds the new result, but
    still carries the string of the earlier exception as its [error], and a
    status summary reports it so. *)
Theorem execute_success_keeps_earlier_error (now : nat → Z) (job : Job.t)
    (ctx1 ctx2 : Context) (t1 t2 : nat) (e : PyExc) (v : pyval) :
  outcome (call job ctx1) = Raise e →
  isinstance_Exception e = true →
  outcome (call job ctx2) = Ok v →
  (Job.execute now (Job.execute now job ctx1 t1).2.1.1 ctx2 t2).1 = Ok v ∧
  Job.status (Job.execute now (Job.execute now job ctx1 t1).2.1.1 ctx2 t2).2.1.1
    = SUCCESS ∧
  Job.result (Job.execute now (Job.execute now job ctx1 t1).2.1.1 ctx2 t2).2.1.1
    = v ∧
  Job.error (Job.execute now (Job.execute now job ctx1 t1).2.1.1 ctx2 t2).2.1.1
    = Some (str e) ∧
  job_summary (Job.execute now (Job.execute now job ctx1 t1).2.1.1 ctx2 t2).2.1.1
    = mkJobSummary "success"
        (Some (total_seconds (now (S t2) - now t2)%Z)) (Some (str e)).
Proof.
  intros Hfail Hexc Hok.
  rewrite (execute_raises now _ _ t1 _ Hfail). cbn [fst snd].
  assert (Hcall : call (failed now t1 e job) ctx2 = call job ctx2).
  { unfold call, Job.execution_params, failed. by rewrite Hexc. }
  rewrite (execute_returns now (failed now t1 e job) ctx2 t2 v)
    by (by rewrite Hcall).
  cbn [fst snd]. unfold failed. rewrite Hexc. by repeat split.
Qed.

(** [double] fails on a context without the result of [load] and succeeds
    on one with it. *)
Lemma execute_success_keeps_earlier_error_witness :
  Job.status
    (Job.execute Examples.clock
       (Job.execute Examples.clock Examples.job_double ∅ 0).2.1.1
       {[ "job_load_result" := VDict [("x", VInt 1)] ]} 2).2.1.1 = SUCCESS ∧
  Job.error
    (Job.execute Examples.clock
       (Job.execute Examples.clock Examples.job_double ∅ 0).2.1.1
       {[ "job_load_result" := VDict [("x", VInt 1)] ]} 2).2.1.1
    = Some "'job_load_result'".
Proof.
  assert (H1 : outcome (call Examples.job_double ∅)
               = Raise (key_error "job_load_result")) by reflexivity.
  assert (H2 : outcome (call Examples.job_double
                          {[ "job_load_result" := VDict [("x", VInt 1)] ]})
               = Ok (VInt 2)) by reflexivity.
  destruct (execute_success_keeps_earlier_error Examples.clock Examples.job_double
              _ _ 0 2 _ _ H1 eq_refl H2) as (_ & Hs & _ & He & _).
  split; [exact Hs | exact He].
Defined.

(* ===================================================================== *)
(** ** Further properties: ProcessController *)
(* ===================================================================== *)

(** X15: [add_pipeline] never raises: unlike [add_job] it replaces a
    pipeline already stored under the same name, in the same place of the
    insertion order, and otherwise stores the pipeline last. Afterwards
    [get_pipeline] returns the added pipeline for its name and what it
    returned before for every other name, and names stay distinct. *)
Theorem add_pipeline_replaces_or_appends (c : ProcessController.t)
    (pl : Pipeline.t) :
  ∃ c',
    ProcessController.add_pipeline pl c = (Ok tt, c') ∧
    ProcessController.get_pipeline (Pipeline.name pl) c' = Some pl ∧
    (∀ n, n ≠ Pipeline.name pl →
       ProcessController.get_pipeline n c' = ProcessController.get_pipeline n c) ∧
    (is_Some (ProcessController.get_pipeline (Pipeline.name pl) c) →
       dict_keys (ProcessController.pipelines c')
       = dict_keys (ProcessController.pipelines c)) ∧
    (ProcessController.get_pipeline (Pipeline.name pl) c = None →
       ProcessController.pipelines c'
       = ProcessController.pipelines c ++ [(Pipeline.name pl, pl)]) ∧
    (dict_wf (ProcessController.pipelines c) →
       dict_wf (ProcessController.pipelines c')).
Proof.
  eexists. split; [reflexivity|]. unfold ProcessController.get_pipeline. simpl.
  split; [apply dict_get_set_eq|].
  split; [intros n Hn; by apply dict_get_set_ne|].
  split; [apply dict_keys_set_present|].
  split; [apply dict_set_absent | apply dict_wf_set].
Qed.

(** X16: [run_pipeline] raises the not-found [ValueError] for a name the
    controller does not hold, and then changes nothing and reads no clock.
    For a name it holds, it gives the outcome of that pipeline's [run], a
    raised exception included (nothing is recorded as an error entry),
    stores the pipeline as the run left it, and leaves every other pipeline
    and the order of the pipelines as they were. *)
Theorem run_pipeline_runs_only_that_pipeline (now : nat → Z) (limit : nat)
    (ic : option Context) (c : ProcessController.t) (env : Env) (name : string) :
  (ProcessController.get_pipeline name c = None →
     ProcessController.run_pipeline now limit name ic (c, env)
     = (Raise (ProcessController.pipeline_not_found name), (c, env))) ∧
  (∀ pl r pl' env',
     ProcessController.get_pipeline name c = Some pl →
     Pipeline.run now limit ic (pl, env) = (r, (pl', env')) →
     ∃ c',
       ProcessController.run_pipeline now limit name ic (c, env) = (r, (c', env')) ∧
       ProcessController.get_pipeline name c' = Some pl' ∧
       (∀ n, n ≠ name →
          ProcessController.get_pipeline n c' = ProcessController.get_pipeline n c) ∧
       dict_keys (ProcessController.pipelines c')
       = dict_keys (ProcessController.pipelines c)).
Proof.
  unfold ProcessController.run_pipeline, ProcessController.get_pipeline. split.
  - by intros ->.
  - intros pl r pl' env' Hget Hrun. rewrite Hget, Hrun.
    eexists. split; [done|]. simpl.
    split; [apply dict_get_set_eq|].
    split; [intros n Hn; by apply dict_get_set_ne|].
    apply dict_keys_set_present. by rewrite Hget.
Qed.

(** X17: in the loop of [run_all_pipelines], a pipeline whose execution
    order cannot be computed (a dependency cycle, a missing dependency) is
    recorded with the error dictionary of that failure: none of its jobs is
    run, the clock is not read, and the loop goes on with the next
    pipeline. *)
Theorem run_all_records_order_failure (now : nat → Z) (limit : nat)
    (ic : option Context) (name : string) (p : Pipeline.t)
    (todo done : list (string * Pipeline.t)) (results : list (string * Context))
    (env : Env) (e : PyExc) :
  Pipeline.get_execution_order limit p = Raise e →
  ProcessController.run_all_loop now limit ic ((name, p) :: todo) done results env
  = ProcessController.run_all_loop now limit ic todo
      (done ++ [(name, Pipeline.merge_initial ic p)])
      (dict_set name (ProcessController.error_entry e) results) env ∧
  Pipeline.jobs (Pipeline.merge_initial ic p) = Pipeline.jobs p.
Proof.
  intros Hord. split; [|apply merge_initial_jobs].
  rewrite run_all_loop_cons, (run_order_failure now limit ic p env e Hord).
  assert (isinstance_Exception e = true) as ->; [|done].
  by destruct (get_execution_order_Raise _ _ _ Hord) as [->|(x & -> & _)].
Qed.

(** The controller whose first pipeline has a cycle records the recursion
    error for it and runs the second pipeline. *)
Lemma run_all_records_order_failure_witness :
  ProcessController.run_all_loop Examples.clock 4 None
    (ProcessController.pipelines Examples.cyclic_controller) [] [] Examples.env0
  = ProcessController.run_all_loop Examples.clock 4 None
      [("two", Examples.two_jobs)]
      ([] ++ [("two_cycle", Pipeline.merge_initial None Examples.two_cycle)])
      (dict_set "two_cycle" (ProcessController.error_entry recursion_error) [])
      Examples.env0 ∧
  Pipeline.jobs (Pipeline.merge_initial None Examples.two_cycle)
  = Pipeline.jobs Examples.two_cycle.
Proof.
  apply (run_all_records_order_failure Examples.clock 4 None "two_cycle"
           Examples.two_cycle [("two", Examples.two_jobs)] [] [] Examples.env0
           recursion_error).
  reflexivity.
Defined.
